(** * The remote function-definition transformer of the async client generator

    Embedding of
    [tools/async_client_generator/transformers/remote/function_def_transformer.py]:
    the class [RemoteFunctionDefTransformer], an [ast.NodeTransformer] that
    turns the method definitions of the synchronous remote client into the
    method definitions of the asynchronous one. *)

From stdpp Require Import base option list strings gmap.

Set Warnings "-register-all".
Open Scope string_scope.
Open Scope list_scope.

(** ** Syntax trees

    The part of Python's [ast] module the transformer reads and produces.
    Field names are those of [ast]. Function definitions occur as members of
    the class body only; a method body is built from the statement kinds
    below. *)

Inductive constant : Type :=
| CNone
| CBool (b : bool)
| CInt (n : Z)
| CStr (s : string).

Inductive boolop : Type := And | Or.

Inductive cmpop : Type := Is | IsNot.

Inductive expr : Type :=
| Name (id : string)
| Constant (value : constant)
| Attribute (value : expr) (attr : string)
| Subscript (value : expr) (slice : expr)
| Tuple (elts : list expr)
| Call (func : expr) (args : list expr) (keywords : list (string * expr))
| Await (value : expr)
| BoolOp (op : boolop) (values : list expr)
| Compare (left : expr) (op : cmpop) (comparator : expr).

Inductive stmt : Type :=
| Assign (targets : list expr) (value : expr)
| AnnAssign (target : expr) (annotation : expr) (value : option expr)
| Expr (value : expr)
| Return (value : option expr)
| Pass
| If (test : expr) (body : list stmt) (orelse : list stmt)
| Try (body : list stmt) (handlers : list (option expr * list stmt))
      (orelse : list stmt) (finalbody : list stmt).

Record arg : Type := mk_arg {
  arg_name : string;
  annotation : option expr
}.

Record arguments : Type := mk_arguments {
  args : list arg;
  defaults : list expr;
  kwarg : option arg
}.

(** The fields shared by [ast.FunctionDef] and [ast.AsyncFunctionDef]. *)
Record fundef : Type := mk_fundef {
  name : string;
  params : arguments;
  body : list stmt;
  decorator_list : list expr;
  returns : option expr
}.

(** A node of the class body. *)
Inductive member : Type :=
| FunctionDef (f : fundef)
| AsyncFunctionDef (f : fundef)
| Statement (s : stmt).

Definition with_body (f : fundef) (b : list stmt) : fundef :=
  {| name := name f; params := params f; body := b;
     decorator_list := decorator_list f; returns := returns f |}.

(** ** Python's [in] on strings and lists *)

(** [sub in s] for two [str]: [sub] occurs in [s] as a contiguous run. *)
Fixpoint str_in (sub s : string) : bool :=
  if String.prefix sub s then true
  else match s with
       | EmptyString => false
       | String _ s' => str_in sub s'
       end.

(** [x in l] for a list of [str]. *)
Definition list_in (x : string) (l : list string) : bool :=
  bool_decide (x ∈ l).

(** ** The transformer object *)

Record RemoteFunctionDefTransformer : Type := mk_transformer {
  keep_sync : list string;
  exclude_methods : list string;
  async_methods : list string
}.

(** The constructor: an argument left out (or [None]) stands for the empty
    list. [keep_sync] is handed to the constructor of the base class, which
    is not among the sources; the specification (section 6) gives its default
    as empty too. *)
Definition __init__ (keep_sync exclude_methods async_methods : option (list string))
  : RemoteFunctionDefTransformer :=
  {| keep_sync := default [] keep_sync;
     exclude_methods := default [] exclude_methods;
     async_methods := default [] async_methods |}.

Definition _keep_sync (self : RemoteFunctionDefTransformer) (name : string) : bool :=
  list_in name (keep_sync self) || negb (list_in name (async_methods self)).

(** ** [override_init]

    [kick_assignments] is a list of references to nodes of the body, and
    [node not in kick_assignments] compares nodes by identity ([ast] nodes
    define no [__eq__]). A reference is modelled by the position of the node
    in [sync_node.body]. *)

Definition node_ref : Type := nat.

Definition isinstance_Attribute (e : expr) : bool :=
  match e with Attribute _ _ => true | _ => false end.

(** [hasattr(e, "attr")]: of the expression nodes only [ast.Attribute] has
    a field [attr]. *)
Definition hasattr_attr (e : expr) : bool :=
  match e with Attribute _ _ => true | _ => false end.

(** [e.attr], read only behind [hasattr_attr]. *)
Definition get_attr (e : expr) : string :=
  match e with Attribute _ attr => attr | _ => "" end.

(** Lines 27-30: the inner loop over [child_node.targets]. *)
Fixpoint kick_targets (child_node : node_ref) (targets : list expr)
    (kick_assignments : list node_ref) : list node_ref :=
  match targets with
  | [] => kick_assignments
  | target :: targets' =>
      kick_targets child_node targets'
        (if isinstance_Attribute target && hasattr_attr target then
           if str_in "aio" (get_attr target)
           then kick_assignments ++ [child_node]
           else kick_assignments
         else kick_assignments)
  end.

(** Lines 26-33: the body of the outer loop, two [if] statements in a row. *)
Definition kick_child (ref : node_ref) (child_node : stmt)
    (kick_assignments : list node_ref) : list node_ref :=
  let kick_assignments :=
    match child_node with
    | Assign targets _ => kick_targets ref targets kick_assignments
    | _ => kick_assignments
    end in
  match child_node with
  | AnnAssign target _ _ =>
      if hasattr_attr target then
        if str_in "aio" (get_attr target)
        then kick_assignments ++ [ref]
        else kick_assignments
      else kick_assignments
  | _ => kick_assignments
  end.

(** Lines 25-33: [for child_node in sync_node.body]. *)
Fixpoint kick_loop (ref : node_ref) (body : list stmt)
    (kick_assignments : list node_ref) : list node_ref :=
  match body with
  | [] => kick_assignments
  | child_node :: body' =>
      kick_loop (S ref) body' (kick_child ref child_node kick_assignments)
  end.

(** Line 34: [[node for node in sync_node.body if node not in kick_assignments]]. *)
Fixpoint not_kicked (ref : node_ref) (body : list stmt)
    (kick_assignments : list node_ref) : list stmt :=
  match body with
  | [] => []
  | node :: body' =>
      if bool_decide (ref ∈ kick_assignments)
      then not_kicked (S ref) body' kick_assignments
      else node :: not_kicked (S ref) body' kick_assignments
  end.

Definition override_init (sync_node : fundef) : fundef :=
  let kick_assignments := kick_loop 0 (body sync_node) [] in
  with_body sync_node (not_kicked 0 (body sync_node) kick_assignments).

(** ** [ast.NodeTransformer]

    [generic_visit] visits every child node and rebuilds each list of
    statements from the results: a child whose visit returns [None] is left
    out, any other result takes the child's place. The transformer defines
    [visit_FunctionDef] only, so a statement of a method body is visited by
    [generic_visit] itself, and expressions are returned as they are. *)

Fixpoint generic_visit_stmt (node : stmt) : stmt :=
  match node with
  | If test body orelse =>
      If test (omap (fun child => Some (generic_visit_stmt child)) body)
              (omap (fun child => Some (generic_visit_stmt child)) orelse)
  | Try body handlers orelse finalbody =>
      Try (omap (fun child => Some (generic_visit_stmt child)) body)
          (map (fun h : option expr * list stmt =>
                  (h.1, omap (fun child => Some (generic_visit_stmt child)) h.2))
               handlers)
          (omap (fun child => Some (generic_visit_stmt child)) orelse)
          (omap (fun child => Some (generic_visit_stmt child)) finalbody)
  | _ => node
  end.

Definition visit_stmt (node : stmt) : option stmt :=
  Some (generic_visit_stmt node).

Definition generic_visit (node : member) : member :=
  match node with
  | FunctionDef f => FunctionDef (with_body f (omap visit_stmt (body f)))
  | AsyncFunctionDef f => AsyncFunctionDef (with_body f (omap visit_stmt (body f)))
  | Statement s => Statement (generic_visit_stmt s)
  end.

(** ** [override_close]

    The tree [ast.parse] builds from the template, of which the first (and
    only) statement is returned. *)

Definition grpc_message : string :=
  "Unable to close grpc_channel. Connection was interrupted on the server side".

Definition http_message : string :=
  "Unable to close http connection. Connection was interrupted on the server side".

Definition show_warning_call (message : string) : stmt :=
  Expr (Call (Name "show_warning") []
          [("message", Constant (CStr message));
           ("category", Name "UserWarning");
           ("stacklevel", Constant (CInt 5))]).

Definition close_channel_stmt : stmt :=
  If (BoolOp And
        [Call (Name "hasattr") [Name "self"; Constant (CStr "_grpc_channel")] [];
         Compare (Attribute (Name "self") "_grpc_channel") IsNot (Constant CNone)])
     [Try
        [Expr (Await (Call (Attribute (Attribute (Name "self") "_grpc_channel") "close")
                           [] [("grace", Name "grpc_grace")]))]
        [(Some (Name "AttributeError"),
          [show_warning_call grpc_message]);
         (Some (Name "RuntimeError"), [Pass])]
        [] []]
     [].

Definition close_http_stmt : stmt :=
  Try
    [Expr (Await (Call (Attribute (Attribute (Name "self") "http") "aclose") [] []))]
    [(Some (Name "Exception"),
      [show_warning_call http_message])]
    [] [].

Definition set_closed_stmt : stmt :=
  Assign [Attribute (Name "self") "_closed"] (Constant (CBool true)).

Definition close_template : fundef :=
  {| name := "close";
     params :=
       {| args := [ {| arg_name := "self"; annotation := None |};
                    {| arg_name := "grpc_grace";
                       annotation := Some (Subscript (Name "Optional") (Name "float")) |} ];
          defaults := [Constant CNone];
          kwarg := Some {| arg_name := "kwargs"; annotation := Some (Name "Any") |} |};
     body := [close_channel_stmt; close_http_stmt; set_closed_stmt];
     decorator_list := [];
     returns := Some (Constant CNone) |}.

Definition override_close : member := AsyncFunctionDef close_template.

(** ** The inherited conversion rule *)

(** Modelled from the spec: the target name of a call expression (section
    4.4), for the call-site rewrite of the absent base package: [f(...)] and
    [obj.f(...)] both target [f]. *)
Definition call_target (func : expr) : option string :=
  match func with
  | Name id => Some id
  | Attribute _ attr => Some attr
  | _ => None
  end.

(** Modelled from the spec: the call-site rewrite of the generic conversion
    (section 4.4), which belongs to the base package
    [tools.async_client_generator.transformers], absent from the sources.
    Every call expression whose target name is in [async_methods] becomes a
    suspending call; every other expression keeps its structure. *)
Fixpoint await_calls (async_methods : list string) (e : expr) : expr :=
  match e with
  | Name _ | Constant _ => e
  | Attribute value attr => Attribute (await_calls async_methods value) attr
  | Subscript value slice =>
      Subscript (await_calls async_methods value) (await_calls async_methods slice)
  | Tuple elts => Tuple (map (await_calls async_methods) elts)
  | Call func args keywords =>
      let call :=
        Call (await_calls async_methods func)
             (map (await_calls async_methods) args)
             (map (fun kw : string * expr => (kw.1, await_calls async_methods kw.2))
                  keywords) in
      match call_target func with
      | Some target => if list_in target async_methods then Await call else call
      | None => call
      end
  | Await value => Await (await_calls async_methods value)
  | BoolOp op values => BoolOp op (map (await_calls async_methods) values)
  | Compare lhs op comparator =>
      Compare (await_calls async_methods lhs) op
              (await_calls async_methods comparator)
  end.

(** Modelled from the spec: the same rewrite through the statements of a
    body (section 4.4: control structures are left as they are). *)
Fixpoint await_calls_stmt (async_methods : list string) (s : stmt) : stmt :=
  match s with
  | Assign targets value =>
      Assign (map (await_calls async_methods) targets)
             (await_calls async_methods value)
  | AnnAssign target annotation value =>
      AnnAssign (await_calls async_methods target) annotation
                (await_calls async_methods <$> value)
  | Expr value => Expr (await_calls async_methods value)
  | Return value => Return (await_calls async_methods <$> value)
  | Pass => Pass
  | If test body orelse =>
      If (await_calls async_methods test)
         (map (await_calls_stmt async_methods) body)
         (map (await_calls_stmt async_methods) orelse)
  | Try body handlers orelse finalbody =>
      Try (map (await_calls_stmt async_methods) body)
          (map (fun h : option expr * list stmt =>
                  (h.1, map (await_calls_stmt async_methods) h.2)) handlers)
          (map (await_calls_stmt async_methods) orelse)
          (map (await_calls_stmt async_methods) finalbody)
  end.

(** Modelled from the spec: the generic conversion rule (section 4.4) of the
    absent base class. The signature is put in suspending form and the calls
    of the body are rewritten; a method whose signature is in suspending form
    already is returned as it is. *)
Definition generic_convert (async_methods : list string) (node : member) : member :=
  match node with
  | FunctionDef f =>
      AsyncFunctionDef (with_body f (map (await_calls_stmt async_methods) (body f)))
  | AsyncFunctionDef _ => node
  | Statement _ => node
  end.

(** Modelled from the spec: [FunctionDefTransformer.visit_FunctionDef], the
    method of the absent base class that [super().visit_FunctionDef] reaches
    (section 4.1, rules 4 and 5). It asks [self._keep_sync], which resolves
    to the override above: a method to keep passes through unmodified, any
    other is converted. *)
Definition super_visit_FunctionDef (self : RemoteFunctionDefTransformer)
    (sync_node : fundef) : option member :=
  if _keep_sync self (name sync_node)
  then Some (FunctionDef sync_node)
  else Some (generic_convert (async_methods self) (FunctionDef sync_node)).

(** ** [visit_FunctionDef] and the traversal of the class *)

Definition visit_FunctionDef (self : RemoteFunctionDefTransformer)
    (sync_node : fundef) : option member :=
  if list_in (name sync_node) (exclude_methods self) then None
  else if String.eqb (name sync_node) "__init__" then
    let sync_node := override_init sync_node in
    Some (generic_visit (FunctionDef sync_node))
  else if String.eqb (name sync_node) "close" then
    Some override_close
  else super_visit_FunctionDef self sync_node.

(** [NodeTransformer.visit]: the method [visit_<class name>] when the
    transformer has one, [generic_visit] otherwise. *)
Definition visit (self : RemoteFunctionDefTransformer) (node : member)
  : option member :=
  match node with
  | FunctionDef f => visit_FunctionDef self f
  | _ => Some (generic_visit node)
  end.

(** [generic_visit] on the class definition: its body is rebuilt from the
    visits of its members, from first to last. *)
Fixpoint visit_class_body (self : RemoteFunctionDefTransformer)
    (old_value : list member) (new_values : list member) : list member :=
  match old_value with
  | [] => new_values
  | value :: rest =>
      match visit self value with
      | None => visit_class_body self rest new_values
      | Some value' => visit_class_body self rest (new_values ++ [value'])
      end
  end.

Definition transform_class (self : RemoteFunctionDefTransformer)
    (class_body : list member) : list member :=
  visit_class_body self class_body [].

(** The rule [visit_FunctionDef] applies to a method, read off its branches
    in their order. *)
Inductive classification : Type :=
| Excluded
| ConstructionOverride
| ShutdownOverride
| KeptSync
| Converted.

Definition classify (self : RemoteFunctionDefTransformer) (m : string)
  : classification :=
  if list_in m (exclude_methods self) then Excluded
  else if String.eqb m "__init__" then ConstructionOverride
  else if String.eqb m "close" then ShutdownOverride
  else if _keep_sync self m then KeptSync
  else Converted.

Definition member_name (node : member) : option string :=
  match node with
  | FunctionDef f | AsyncFunctionDef f => Some (name f)
  | Statement _ => None
  end.

(** ** What the construction override is to remove *)

(** The target binds a field of the non-blocking transport: an attribute
    reference whose attribute name carries the marker. *)
Definition marked_attribute (target : expr) : bool :=
  match target with
  | Attribute _ attr => str_in "aio" attr
  | _ => false
  end.

(** The statement is a plain or annotated assignment with a marked target. *)
Definition marked_assignment (s : stmt) : bool :=
  match s with
  | Assign targets _ => existsb marked_attribute targets
  | AnnAssign target _ _ => marked_attribute target
  | _ => false
  end.

(** ** Running a method body

    The shutdown template is code the generated client runs. Its meaning is
    given by an evaluator for the statements above: Python's rules for
    attribute access, calls, [and], [is not], [if] and [try]. A construct
    the evaluator does not cover ends the run as [Unsupported]. *)

(** The exception classes told apart. The first four stand for an instance
    of the builtin class of that name or of one of its subclasses.
    [OtherError cls] is an instance of a class named [cls] that derives from
    [Exception] directly, [NonError cls] one of a class named [cls] that
    derives from [BaseException] directly (a cancellation, a keyboard
    interrupt): a class is told by its name, and neither is a subclass of the
    four named classes. *)
Inductive exn : Type :=
| AttributeError
| RuntimeError
| NameError
| TypeError
| OtherError (cls : string)
| NonError (cls : string).

Inductive value : Type :=
| VNone
| VBool (b : bool)
| VInt (n : Z)
| VStr (s : string)
| VSelf                               (* the client object *)
| VObject (o : string)                (* a transport object *)
| VMethod (o : string) (m : string)   (* the bound method [o.m] *)
| VGlobal (id : string).              (* a function or class of the module *)

Global Instance exn_eq_dec : EqDecision exn.
Proof. solve_decision. Defined.

Global Instance value_eq_dec : EqDecision value.
Proof. solve_decision. Defined.

(** What the call [o.m(...)] of a transport does when [n] calls of it were
    made before: it returns [None], or it raises. *)
Definition transports : Type := string -> string -> nat -> option exn.

Record state : Type := mk_state {
  self_dict : gmap string value;          (* the attributes of the client *)
  locals : gmap string value;             (* the frame of the method *)
  warnings : list string;                 (* what [show_warning] reported *)
  invocations : list (string * string)    (* the transport calls made *)
}.

Inductive result (A : Type) : Type :=
| Ok (a : A)
| Raise (e : exn)
| Unsupported.
Arguments Ok {A} a.
Arguments Raise {A} e.
Arguments Unsupported {A}.

Definition M (A : Type) : Type := state -> result A * state.

Definition ret {A : Type} (a : A) : M A := fun st => (Ok a, st).
Definition raise {A : Type} (e : exn) : M A := fun st => (Raise e, st).
Definition unsupported {A : Type} : M A := fun st => (Unsupported, st).

Definition bind {A B : Type} (m : M A) (k : A -> M B) : M B :=
  fun st =>
    match m st with
    | (Ok a, st') => k a st'
    | (Raise e, st') => (Raise e, st')
    | (Unsupported, st') => (Unsupported, st')
    end.

Notation "'let*' x ':=' m 'in' k" := (bind m (fun x => k))
  (at level 10, x name, m at level 100, k at level 200).

Definition module_globals : list string :=
  ["hasattr"; "show_warning"; "UserWarning"; "Optional"; "Any";
   "AttributeError"; "RuntimeError"; "Exception"].

Definition lookup_name (id : string) : M value :=
  fun st =>
    match locals st !! id with
    | Some v => (Ok v, st)
    | None => if list_in id module_globals then (Ok (VGlobal id), st)
              else (Raise NameError, st)
    end.

Definition constant_value (c : constant) : value :=
  match c with
  | CNone => VNone
  | CBool b => VBool b
  | CInt n => VInt n
  | CStr s => VStr s
  end.

(** Attribute access. The client reads its own attributes, a transport
    object hands out a bound method, [None] has no attribute of an ordinary
    name, and [bool], [int] and [str] have no attribute [close] or [aclose];
    the other attributes of the builtin values are not covered. *)
Definition getattr (v : value) (attr : string) : M value :=
  fun st =>
    match v with
    | VSelf =>
        match self_dict st !! attr with
        | Some x => (Ok x, st)
        | None => (Raise AttributeError, st)
        end
    | VObject o => (Ok (VMethod o attr), st)
    | VNone => (Raise AttributeError, st)
    | VBool _ | VInt _ | VStr _ =>
        if list_in attr ["close"; "aclose"] then (Raise AttributeError, st)
        else (Unsupported, st)
    | _ => (Unsupported, st)
    end.

Definition truthy (v : value) : bool :=
  match v with
  | VNone => false
  | VBool b => b
  | VInt n => negb (Z.eqb n 0)
  | VStr s => negb (String.eqb s "")
  | _ => true
  end.

Definition compare (op : cmpop) (v1 v2 : value) : value :=
  match op with
  | Is => VBool (bool_decide (v1 = v2))
  | IsNot => VBool (negb (bool_decide (v1 = v2)))
  end.

Definition keyword_value (k : string) (kws : list (string * value)) : option value :=
  snd <$> List.find (fun kw => String.eqb kw.1 k) kws.

Definition count_invocations (o m : string) (l : list (string * string)) : nat :=
  length (List.filter (fun c => String.eqb c.1 o && String.eqb c.2 m) l).

Definition record_warning (message : string) (st : state) : state :=
  {| self_dict := self_dict st; locals := locals st;
     warnings := warnings st ++ [message];
     invocations := invocations st |}.

Definition record_invocation (o m : string) (st : state) : state :=
  {| self_dict := self_dict st; locals := locals st;
     warnings := warnings st;
     invocations := invocations st ++ [(o, m)] |}.

(** A call: the builtin [hasattr] on the client, [show_warning], which
    reports its message and returns, or a method of a transport object. *)
Definition call_value (w : transports) (f : value) (vs : list value)
    (kws : list (string * value)) : M value :=
  fun st =>
    match f with
    | VGlobal id =>
        if String.eqb id "hasattr" then
          match vs, kws with
          | [VSelf; VStr a], [] =>
              (Ok (VBool (bool_decide (is_Some (self_dict st !! a)))), st)
          | _, _ => (Unsupported, st)
          end
        else if String.eqb id "show_warning" then
          match vs, keyword_value "message" kws with
          | [], Some (VStr message) => (Ok VNone, record_warning message st)
          | _, _ => (Unsupported, st)
          end
        else (Unsupported, st)
    | VMethod o m =>
        match w o m (count_invocations o m (invocations st)) with
        | None => (Ok VNone, record_invocation o m st)
        | Some e => (Raise e, record_invocation o m st)
        end
    | VNone | VBool _ | VInt _ | VStr _ => (Raise TypeError, st)
    | _ => (Unsupported, st)
    end.

(** The arguments of a call, the keyword arguments and the operands of
    [and]/[or] are evaluated from left to right. *)
Fixpoint eval_args (eval : expr -> M value) (es : list expr) : M (list value) :=
  match es with
  | [] => ret []
  | e :: es' =>
      let* v := eval e in
      let* vs := eval_args eval es' in
      ret (v :: vs)
  end.

Fixpoint eval_keywords (eval : expr -> M value) (ks : list (string * expr))
  : M (list (string * value)) :=
  match ks with
  | [] => ret []
  | (k, e) :: ks' =>
      let* v := eval e in
      let* kvs := eval_keywords eval ks' in
      ret ((k, v) :: kvs)
  end.

Fixpoint eval_boolop (eval : expr -> M value) (op : boolop) (es : list expr)
  : M value :=
  match es with
  | [] => unsupported
  | [e] => eval e
  | e :: es' =>
      let* v := eval e in
      match op with
      | And => if truthy v then eval_boolop eval op es' else ret v
      | Or => if truthy v then ret v else eval_boolop eval op es'
      end
  end.

Fixpoint eval (w : transports) (e : expr) {struct e} : M value :=
  match e with
  | Name id => lookup_name id
  | Constant c => ret (constant_value c)
  | Attribute value attr => let* v := eval w value in getattr v attr
  | Subscript _ _ => unsupported
  | Tuple _ => unsupported
  | Call func args keywords =>
      let* f := eval w func in
      let* vs := eval_args (eval w) args in
      let* kws := eval_keywords (eval w) keywords in
      call_value w f vs kws
  | Await value => eval w value
  | BoolOp op values => eval_boolop (eval w) op values
  | Compare lhs op comparator =>
      let* v1 := eval w lhs in
      let* v2 := eval w comparator in
      ret (compare op v1 v2)
  end.

Definition store_attr (attr : string) (v : value) (st : state) : state :=
  {| self_dict := <[attr := v]> (self_dict st); locals := locals st;
     warnings := warnings st; invocations := invocations st |}.

Definition store_local (id : string) (v : value) (st : state) : state :=
  {| self_dict := self_dict st; locals := <[id := v]> (locals st);
     warnings := warnings st; invocations := invocations st |}.

Definition setattr (o : value) (attr : string) (v : value) : M unit :=
  fun st =>
    match o with
    | VSelf => (Ok tt, store_attr attr v st)
    | _ => (Unsupported, st)
    end.

Definition assign (w : transports) (target : expr) (v : value) : M unit :=
  match target with
  | Name id => fun st => (Ok tt, store_local id v st)
  | Attribute obj attr => let* o := eval w obj in setattr o attr v
  | _ => unsupported
  end.

Fixpoint assign_all (w : transports) (targets : list expr) (v : value) : M unit :=
  match targets with
  | [] => ret tt
  | target :: targets' =>
      let* _ := assign w target v in
      assign_all w targets' v
  end.

(** How a statement ends. *)
Inductive outcome : Type :=
| Normal
| Returned (v : value)
| Raised (e : exn)
| Stuck.

Definition finish {A : Type} (r : result A * state) : outcome * state :=
  match r with
  | (Ok _, st) => (Normal, st)
  | (Raise e, st) => (Raised e, st)
  | (Unsupported, st) => (Stuck, st)
  end.

Definition is_Exception (e : exn) : bool :=
  match e with NonError _ => false | _ => true end.

(** [except type:] against a raised exception, by the class hierarchy of
    the builtin exceptions. *)
Definition catches (type : option expr) (e : exn) : option bool :=
  match type with
  | None => Some true
  | Some (Name cls) =>
      Some (if String.eqb cls "BaseException" then true
            else if String.eqb cls "Exception" then is_Exception e
            else match e with
                 | AttributeError => String.eqb cls "AttributeError"
                 | RuntimeError => String.eqb cls "RuntimeError"
                 | NameError => String.eqb cls "NameError"
                 | TypeError => String.eqb cls "TypeError"
                 | OtherError c | NonError c => String.eqb cls c
                 end)
  | Some _ => None
  end.

Fixpoint exec_list (exec : stmt -> state -> outcome * state) (l : list stmt)
    (st : state) : outcome * state :=
  match l with
  | [] => (Normal, st)
  | s :: l' =>
      match exec s st with
      | (Normal, st') => exec_list exec l' st'
      | r => r
      end
  end.

(** The first handler that catches the exception runs; with none, the
    exception goes on. *)
Fixpoint exec_handlers (exec : stmt -> state -> outcome * state)
    (handlers : list (option expr * list stmt)) (e : exn) (st : state)
  : outcome * state :=
  match handlers with
  | [] => (Raised e, st)
  | (type, hbody) :: handlers' =>
      match catches type e with
      | Some true => exec_list exec hbody st
      | Some false => exec_handlers exec handlers' e st
      | None => (Stuck, st)
      end
  end.

Fixpoint exec (w : transports) (s : stmt) (st : state) {struct s}
  : outcome * state :=
  match s with
  | Assign targets value =>
      finish ((let* v := eval w value in assign_all w targets v) st)
  | AnnAssign target _ (Some value) =>
      finish ((let* v := eval w value in assign w target v) st)
  | AnnAssign (Name _) _ None => (Normal, st)
  | AnnAssign _ _ None => (Stuck, st)
  | Expr value => finish (eval w value st)
  | Return None => (Returned VNone, st)
  | Return (Some value) =>
      match eval w value st with
      | (Ok v, st') => (Returned v, st')
      | r => finish r
      end
  | Pass => (Normal, st)
  | If test body orelse =>
      match eval w test st with
      | (Ok v, st') =>
          if truthy v then exec_list (exec w) body st'
          else exec_list (exec w) orelse st'
      | r => finish r
      end
  | Try body handlers orelse finalbody =>
      let '(o, st') :=
        match exec_list (exec w) body st with
        | (Normal, st1) => exec_list (exec w) orelse st1
        | (Raised e, st1) => exec_handlers (exec w) handlers e st1
        | r => r
        end in
      match o with
      | Stuck => (Stuck, st')
      | _ =>
          match exec_list (exec w) finalbody st' with
          | (Normal, st'') => (o, st'')
          | r => r
          end
      end
  end.

Definition exec_block (w : transports) (l : list stmt) (st : state)
  : outcome * state :=
  exec_list (exec w) l st.

(** The frame of a call of a method by keyword: each parameter name bound to
    its argument. *)
Definition call_frame (actuals : list (string * value)) : gmap string value :=
  list_to_map actuals.

(** Calling a method on the client whose attributes are [d]. *)
Definition call_method (w : transports) (f : fundef)
    (actuals : list (string * value)) (d : gmap string value)
    (calls : list (string * string)) : outcome * state :=
  exec_block w (body f)
    {| self_dict := d; locals := call_frame actuals; warnings := [];
       invocations := calls |}.

(** ** Vocabulary of the specification *)

(** The body [override_init] leaves for a body [l]. *)
Definition kept (l : list stmt) : list stmt :=
  not_kicked 0 l (kick_loop 0 l []).

(** A statement that owns child blocks. *)
Definition is_block (s : stmt) : bool :=
  match s with
  | If _ _ _ | Try _ _ _ _ => true
  | _ => false
  end.

(** An assignment with a target that is no attribute reference: the shape
    section 7 of the specification names as one the construction override
    cannot match. *)
Definition unmatched_assignment (s : stmt) : bool :=
  match s with
  | Assign targets _ => existsb (fun t => negb (isinstance_Attribute t)) targets
  | AnnAssign target _ _ => negb (isinstance_Attribute target)
  | _ => false
  end.

(** What a rule makes of a method: [None] when the method is left out. *)
Definition apply_rule (self : RemoteFunctionDefTransformer) (c : classification)
    (f : fundef) : option member :=
  match c with
  | Excluded => None
  | ConstructionOverride => Some (FunctionDef (override_init f))
  | ShutdownOverride => Some override_close
  | KeptSync => Some (FunctionDef f)
  | Converted => Some (generic_convert (async_methods self) (FunctionDef f))
  end.

(** The member that takes the place of a method that is not excluded. *)
Definition replacement (self : RemoteFunctionDefTransformer) (f : fundef) : member :=
  default (FunctionDef f) (apply_rule self (classify self (name f)) f).

Definition excluded (self : RemoteFunctionDefTransformer) (f : fundef) : bool :=
  list_in (name f) (exclude_methods self).

(** ** The shutdown contract *)

(** The frame of a call of the shutdown method. *)
Definition close_frame (grace kwargs : value) : gmap string value :=
  call_frame [("self", VSelf); ("grpc_grace", grace); ("kwargs", kwargs)].

Definition close_actuals (grace kwargs : value) : list (string * value) :=
  [("self", VSelf); ("grpc_grace", grace); ("kwargs", kwargs)].

(** A transport attribute of the client is unset, [None], or a transport
    object. *)
Definition transport_slot (v : option value) : bool :=
  match v with
  | None | Some VNone | Some (VObject _) => true
  | Some _ => false
  end.

(** What an attribute of the client holds: [None], a boolean, a number, a
    string or a transport object. *)
Inductive field : Type :=
| FNone
| FBool (b : bool)
| FInt (n : Z)
| FStr (s : string)
| FObject (o : string).

Definition field_value (x : field) : value :=
  match x with
  | FNone => VNone
  | FBool b => VBool b
  | FInt n => VInt n
  | FStr s => VStr s
  | FObject o => VObject o
  end.

(** The attributes of a client as the evaluator reads them. *)
Definition client_dict (fields : gmap string field) : gmap string value :=
  field_value <$> fields.

(** The attribute is not there or holds the value of a field. *)
Definition field_slot (v : option value) : bool :=
  match v with
  | Some VSelf | Some (VMethod _ _) | Some (VGlobal _) => false
  | _ => true
  end.

(** A state within a call of the shutdown method: the frame binds the
    parameters and nothing else. *)
Definition within_close (grace kwargs : value) (st : state) : Prop :=
  locals st = close_frame grace kwargs.

(** The test of the first statement of the template: the channel attribute
    is there and is not [None]. *)
Definition channel_open (st : state) : bool :=
  match self_dict st !! "_grpc_channel" with
  | Some v => negb (bool_decide (v = VNone))
  | None => false
  end.

(** Step 1 of the shutdown contract (section 4.3): a channel that is there
    is closed; an attribute-not-found error is reported as a warning, an
    invalid-runtime-state error is passed over in silence. An attribute that
    holds a boolean, a number or a string has no [close]: that is an
    attribute-not-found error as well. *)
Definition after_channel_close (w : transports) (st : state) : state :=
  match self_dict st !! "_grpc_channel" with
  | Some (VObject c) =>
      let st' := record_invocation c "close" st in
      match w c "close" (count_invocations c "close" (invocations st)) with
      | Some AttributeError => record_warning grpc_message st'
      | _ => st'
      end
  | Some (VBool _) | Some (VInt _) | Some (VStr _) =>
      record_warning grpc_message st
  | _ => st
  end.

(** Step 2: the HTTP client is closed; any error is reported as a warning. *)
Definition after_http_close (w : transports) (st : state) : state :=
  match self_dict st !! "http" with
  | Some (VObject h) =>
      let st' := record_invocation h "aclose" st in
      match w h "aclose" (count_invocations h "aclose" (invocations st)) with
      | Some _ => record_warning http_message st'
      | None => st'
      end
  | _ => record_warning http_message st
  end.

(** The errors the channel close is guarded against. *)
Definition channel_guarded (e : exn) : bool :=
  match e with AttributeError | RuntimeError => true | _ => false end.

(** A world in which every close call of a transport raises [e], at every
    invocation. *)
Definition always_raises (e : exn) : transports := fun _ _ _ => Some e.

Definition open_client : gmap string value :=
  {[ "_grpc_channel" := VObject "channel"; "http" := VObject "http" ]}.

(** ** Sample inputs *)

Definition self_attr (a : string) : expr := Attribute (Name "self") a.

Definition method_params : arguments :=
  {| args := [ {| arg_name := "self"; annotation := None |} ];
     defaults := []; kwarg := None |}.

Definition method (n : string) (b : list stmt) : fundef :=
  {| name := n; params := method_params; body := b;
     decorator_list := []; returns := None |}.

(** A constructor in the manner of the remote client: blocking and
    non-blocking transport fields, a local variable, a field whose name
    happens to contain the marker, and a block with a marked field inside. *)
Definition sample_init_body : list stmt :=
  [ Assign [self_attr "_grpc_channel"] (Constant CNone);
    Assign [self_attr "_aio_grpc_channel"] (Constant CNone);
    AnnAssign (self_attr "_aio_grpc_points_client")
              (Subscript (Name "Optional") (Name "PointsStub"))
              (Some (Constant CNone));
    Assign [Name "limits"] (Constant (CInt 10));
    Assign [self_attr "dubaioffice"] (Constant (CStr "DXB"));
    Assign [self_attr "_timeout"; self_attr "_aio_timeout"] (Name "limits");
    If (Name "limits")
       [Assign [self_attr "_aio_pool"] (Constant CNone)]
       [];
    Assign [self_attr "_closed"] (Constant (CBool false)) ].

Definition sample_init : fundef := method "__init__" sample_init_body.

Definition sample_policy : RemoteFunctionDefTransformer :=
  __init__ (Some ["search"]) (Some ["delete_all"]) (Some ["search"; "upsert"; "query"]).

(** The class and the policy of the end-to-end scenario of the
    specification (section 8). *)
Definition sample_methods : list fundef :=
  [ sample_init;
    method "search" [Return (Some (Call (self_attr "query") [] []))];
    method "upsert" [Expr (Call (self_attr "search") [] []);
                     Return (Some (Call (self_attr "_send") [] []))];
    method "delete_all" [Pass];
    method "close" [Expr (Call (Attribute (self_attr "http") "close") [] [])] ].

(** A constructor with an assignment to a plain name. *)
Definition plain_name_init : fundef :=
  method "__init__" [Assign [Name "limits"] (Constant (CInt 10))].

(** * Properties *)

(** ** Substring containment *)

Lemma prefix_app (sub s : string) :
  String.prefix sub s = true <-> exists post, s = sub +:+ post.
Proof.
  revert s. induction sub as [|c sub IH]; intros s; simpl.
  - split; [intros _; by exists s | by destruct s].
  - destruct s as [|d s]; simpl.
    + split; [done | by intros [post Hp]].
    + destruct (Ascii.ascii_dec c d) as [->|Hne].
      * rewrite IH. split.
        -- intros [post ->]. by exists post.
        -- intros [post Hp]. simpl in Hp. injection Hp as ->. by exists post.
      * split; [done | intros [post Hp]]. injection Hp as Hcd _. congruence.
Qed.

Lemma str_in_unfold (sub s : string) :
  str_in sub s =
  if String.prefix sub s then true
  else match s with
       | EmptyString => false
       | String _ s' => str_in sub s'
       end.
Proof. by destruct s. Qed.

Lemma str_in_spec (sub s : string) :
  str_in sub s = true <-> exists pre post, s = pre +:+ sub +:+ post.
Proof.
  induction s as [|c s IH]; rewrite str_in_unfold.
  - destruct (String.prefix sub "") eqn:Hp.
    + apply prefix_app in Hp as [post Hp]. split; [intros _ | done].
      by exists "", post.
    + split; [done |]. intros (pre & post & Heq). exfalso.
      destruct pre; [| done].
      assert (String.prefix sub "" = true) by (apply prefix_app; eauto).
      congruence.
  - destruct (String.prefix sub (String c s)) eqn:Hp.
    + apply prefix_app in Hp as [post Hp]. split; [intros _ | done].
      by exists "", post.
    + rewrite IH. split.
      * intros (pre & post & ->). by exists (String c pre), post.
      * intros (pre & post & Heq). destruct pre as [|d pre].
        -- assert (String.prefix sub (String c s) = true)
             by (apply prefix_app; eauto).
           congruence.
        -- injection Heq as -> ->. eauto.
Qed.

(** ** The construction override as a filter *)

Lemma kick_targets_elem (i ref : node_ref) targets kick :
  i ∈ kick_targets ref targets kick <->
  i ∈ kick \/ (i = ref /\ existsb marked_attribute targets = true).
Proof.
  revert kick. induction targets as [|target targets IH]; intros kick; simpl.
  - intuition discriminate.
  - rewrite IH. destruct target; simpl; try tauto.
    destruct (str_in "aio" attr); simpl; [| tauto].
    rewrite elem_of_app, list_elem_of_singleton. tauto.
Qed.

Lemma kick_child_elem (i ref : node_ref) child kick :
  i ∈ kick_child ref child kick <->
  i ∈ kick \/ (i = ref /\ marked_assignment child = true).
Proof.
  destruct child; simpl; try (intuition discriminate).
  - apply kick_targets_elem.
  - destruct target; simpl; try (intuition discriminate).
    destruct (str_in "aio" attr); simpl; [| intuition discriminate].
    rewrite elem_of_app, list_elem_of_singleton. tauto.
Qed.

Lemma kick_loop_elem (i ref : node_ref) (l : list stmt) kick :
  i ∈ kick_loop ref l kick <->
  i ∈ kick \/
  exists j s, i = ref + j /\ l !! j = Some s /\ marked_assignment s = true.
Proof.
  revert ref kick. induction l as [|child l IH]; intros ref kick; simpl.
  - split; [tauto | intros [H | (j & s & _ & Hj & _)]; [done |]].
    by rewrite lookup_nil in Hj.
  - rewrite IH, kick_child_elem. split.
    + intros [[H | [-> H]] | (j & s & -> & Hj & Hs)].
      * by left.
      * right. exists 0, child. split; [lia | done].
      * right. exists (S j), s. split; [lia | done].
    + intros [H | (j & s & -> & Hj & Hs)].
      * by left; left.
      * destruct j as [|j]; simpl in Hj.
        -- injection Hj as ->. left; right. split; [lia | done].
        -- right. exists j, s. split; [lia | done].
Qed.

Lemma not_kicked_filter (ref : node_ref) (l : list stmt) kick :
  (forall j s, l !! j = Some s ->
     ref + j ∈ kick <-> marked_assignment s = true) ->
  not_kicked ref l kick = List.filter (fun s => negb (marked_assignment s)) l.
Proof.
  revert ref. induction l as [|node l IH]; intros ref H; simpl; [done |].
  assert (Hl : not_kicked (S ref) l kick
               = List.filter (fun s => negb (marked_assignment s)) l).
  { apply IH. intros j s Hj. rewrite <- (H (S j) s Hj).
    by replace (ref + S j) with (S ref + j) by lia. }
  rewrite Hl. specialize (H 0 node eq_refl).
  replace (ref + 0) with ref in H by lia.
  destruct (marked_assignment node); simpl.
  - rewrite bool_decide_eq_true_2; [done | by apply H].
  - rewrite bool_decide_eq_false_2; [done |]. intros Hin. by apply H in Hin.
Qed.

(** The marking depends on the statement only, so comparing nodes by
    identity selects the statements that are not marked. *)
Lemma override_init_body (sync_node : fundef) :
  body (override_init sync_node)
  = List.filter (fun s => negb (marked_assignment s)) (body sync_node).
Proof.
  unfold override_init. simpl. apply not_kicked_filter.
  intros j s Hj. rewrite kick_loop_elem. split.
  - intros [H | (j' & s' & Hjj & Hj' & Hs)]; [by apply elem_of_nil in H |].
    simpl in Hjj. subst j'. congruence.
  - intros Hs. right. eauto.
Qed.

(** ** [generic_visit] inside a method body *)

Lemma omap_Some_map {A B : Type} (f : A -> B) (l : list A) :
  omap (fun x => Some (f x)) l = map f l.
Proof. induction l as [|x l IHl]; [done |]. csimpl. by rewrite IHl. Qed.

(** No statement of a method body is a function definition, so the
    traversal rebuilds every statement as it was. *)
Lemma generic_visit_stmt_id : forall s : stmt, generic_visit_stmt s = s.
Proof.
  fix IH 1. intros s.
  destruct s; simpl; try done; rewrite !omap_Some_map.
  - f_equal.
    + induction body0 as [|x l IHl]; [done |]. simpl. by rewrite (IH x), IHl.
    + induction orelse as [|x l IHl]; [done |]. simpl. by rewrite (IH x), IHl.
  - f_equal.
    + induction body0 as [|x l IHl]; [done |]. simpl. by rewrite (IH x), IHl.
    + induction handlers as [|[ty hb] hs IHhs]; [done |].
      simpl. rewrite IHhs, omap_Some_map. do 2 f_equal.
      induction hb as [|x l IHl]; [done |]. simpl. by rewrite (IH x), IHl.
    + induction orelse as [|x l IHl]; [done |]. simpl. by rewrite (IH x), IHl.
    + induction finalbody as [|x l IHl]; [done |]. simpl. by rewrite (IH x), IHl.
Qed.

Lemma omap_visit_stmt (l : list stmt) : omap visit_stmt l = l.
Proof.
  unfold visit_stmt. rewrite omap_Some_map.
  induction l as [|x l IHl]; [done |]. simpl.
  by rewrite generic_visit_stmt_id, IHl.
Qed.

Lemma with_body_same (f : fundef) : with_body f (body f) = f.
Proof. by destruct f. Qed.

Lemma generic_visit_id (node : member) : generic_visit node = node.
Proof.
  destruct node; simpl.
  - by rewrite omap_visit_stmt, with_body_same.
  - by rewrite omap_visit_stmt, with_body_same.
  - by rewrite generic_visit_stmt_id.
Qed.

(** ** The construction override *)

Lemma kept_filter (l : list stmt) :
  kept l = List.filter (fun s => negb (marked_assignment s)) l.
Proof.
  change (kept l) with (body (override_init (method "" l))).
  by rewrite override_init_body.
Qed.

Lemma kept_app (l1 l2 : list stmt) : kept (l1 ++ l2) = kept l1 ++ kept l2.
Proof. rewrite !kept_filter. apply List.filter_app. Qed.

Lemma kept_cons (s : stmt) (l : list stmt) :
  kept (s :: l) = if marked_assignment s then kept l else s :: kept l.
Proof. rewrite !kept_filter. simpl. by destruct (marked_assignment s). Qed.

Lemma override_init_kept (sync_node : fundef) :
  body (override_init sync_node) = kept (body sync_node).
Proof. reflexivity. Qed.

Lemma marked_attribute_spec (obj : expr) (attr : string) :
  marked_attribute (Attribute obj attr) = true <->
  exists l r, attr = l +:+ "aio" +:+ r.
Proof. apply str_in_spec. Qed.

Lemma is_block_not_marked (s : stmt) :
  is_block s = true -> marked_assignment s = false.
Proof. by destruct s. Qed.

Lemma filter_blocks_kept (l : list stmt) :
  List.filter is_block (kept l) = List.filter is_block l.
Proof.
  induction l as [|s l IH]; [done |].
  rewrite kept_cons. destruct (marked_assignment s) eqn:Hs; simpl.
  - rewrite IH. destruct (is_block s) eqn:Hb; [| done].
    apply is_block_not_marked in Hb. congruence.
  - rewrite IH. done.
Qed.

(** C4. For every constructor, [override_init] removes exactly the plain and
    annotated assignments with a target that is an attribute reference whose
    attribute name carries the marker, and keeps every other statement as it
    is and in its order; the other fields of the constructor are untouched.
    In particular a marked assignment next to an ordinary one leaves the
    ordinary one alone. *)
Theorem override_init_removes_marked_assignments (sync_node : fundef) :
  body (override_init sync_node)
  = List.filter (fun s => negb (marked_assignment s)) (body sync_node)
  /\ name (override_init sync_node) = name sync_node
  /\ params (override_init sync_node) = params sync_node
  /\ decorator_list (override_init sync_node) = decorator_list sync_node
  /\ returns (override_init sync_node) = returns sync_node
  /\ forall obj attr value ann obj' attr' value',
       str_in "aio" attr = true -> str_in "aio" attr' = false ->
       kept [Assign [Attribute obj attr] value;
             Assign [Attribute obj' attr'] value']
       = [Assign [Attribute obj' attr'] value']
       /\ kept [Assign [Attribute obj' attr'] value';
                AnnAssign (Attribute obj attr) ann (Some value)]
          = [Assign [Attribute obj' attr'] value'].
Proof.
  split; [apply override_init_body |].
  repeat (split; [reflexivity |]).
  intros obj attr value ann obj' attr' value' Ha Ha'.
  rewrite !kept_filter. simpl. by rewrite Ha, Ha'.
Qed.

Lemma override_init_removes_marked_assignments_witness :
  body (override_init sample_init)
  = [ Assign [self_attr "_grpc_channel"] (Constant CNone);
      Assign [Name "limits"] (Constant (CInt 10));
      If (Name "limits")
         [Assign [self_attr "_aio_pool"] (Constant CNone)]
         [];
      Assign [self_attr "_closed"] (Constant (CBool false)) ].
Proof.
  rewrite (proj1 (override_init_removes_marked_assignments sample_init)).
  reflexivity.
Defined.

(** C8. [override_init] looks at the direct children of the constructor
    body only: a child block stays in the body as it is, whatever it holds
    (a marked assignment inside a [try] or an [if] included); the blocks of
    the output are those of the input in their order, and every statement of
    the output is a statement of the input. *)
Theorem override_init_top_level_only (sync_node : fundef) (block : stmt) :
  is_block block = true ->
  In block (body sync_node) ->
  In block (body (override_init sync_node))
  /\ List.filter is_block (body (override_init sync_node))
     = List.filter is_block (body sync_node)
  /\ forall s, In s (body (override_init sync_node)) -> In s (body sync_node).
Proof.
  intros Hb Hin. rewrite override_init_kept. split; [| split].
  - rewrite kept_filter. apply List.filter_In. split; [done |].
    by rewrite (is_block_not_marked _ Hb).
  - apply filter_blocks_kept.
  - intros s. rewrite kept_filter. intros Hs.
    by apply List.filter_In in Hs as [Hs _].
Qed.

Lemma override_init_top_level_only_witness :
  In (If (Name "limits") [Assign [self_attr "_aio_pool"] (Constant CNone)] [])
     (body (override_init sample_init)).
Proof.
  apply (override_init_top_level_only sample_init
           (If (Name "limits") [Assign [self_attr "_aio_pool"] (Constant CNone)] [])).
  - reflexivity.
  - simpl. tauto.
Defined.

(** C9. A plain assignment with several targets, one of which is a marked
    attribute reference, is removed as a whole: the body that is left is what
    is left of the statements before it followed by what is left of the
    statements after it, so the bindings to its other targets go too. *)
Theorem override_init_removes_whole_assignment
    (sync_node : fundef) (pre post : list stmt) (targets : list expr)
    (value target : expr) :
  body sync_node = pre ++ Assign targets value :: post ->
  In target targets ->
  marked_attribute target = true ->
  body (override_init sync_node) = kept pre ++ kept post.
Proof.
  intros Hbody Hin Hm.
  rewrite override_init_kept, Hbody, kept_app, kept_cons.
  assert (Hs : marked_assignment (Assign targets value) = true).
  { simpl. apply List.existsb_exists. eauto. }
  by rewrite Hs.
Qed.

Lemma override_init_removes_whole_assignment_witness :
  body (override_init
          (method "__init__"
             [ Assign [self_attr "a"] (Constant CNone);
               Assign [self_attr "_timeout"; self_attr "_aio_timeout"] (Name "limits");
               Assign [self_attr "b"] (Constant CNone) ]))
  = [ Assign [self_attr "a"] (Constant CNone);
      Assign [self_attr "b"] (Constant CNone) ].
Proof.
  apply (override_init_removes_whole_assignment _
           [Assign [self_attr "a"] (Constant CNone)]
           [Assign [self_attr "b"] (Constant CNone)]
           [self_attr "_timeout"; self_attr "_aio_timeout"] (Name "limits")
           (self_attr "_aio_timeout")).
  - reflexivity.
  - simpl. tauto.
  - reflexivity.
Defined.

(** C10. The marker test is substring containment: an assignment to a single
    attribute reference (plain or annotated) is removed if and only if the
    attribute name contains [aio] somewhere, and is kept in place if and only
    if it does not; what the attribute is for plays no part. *)
Theorem marker_is_substring_aio
    (sync_node : fundef) (pre post : list stmt) (s : stmt)
    (obj : expr) (attr : string) (value ann : expr) (ovalue : option expr) :
  body sync_node = pre ++ s :: post ->
  s = Assign [Attribute obj attr] value
  \/ s = AnnAssign (Attribute obj attr) ann ovalue ->
  (body (override_init sync_node) = kept pre ++ kept post
   <-> exists l r, attr = l +:+ "aio" +:+ r)
  /\ (body (override_init sync_node) = kept pre ++ s :: kept post
      <-> ~ exists l r, attr = l +:+ "aio" +:+ r).
Proof.
  intros Hbody Hs.
  assert (Hm : marked_assignment s = marked_attribute (Attribute obj attr)).
  { destruct Hs as [-> | ->]; simpl; [by rewrite orb_false_r | done]. }
  rewrite override_init_kept, Hbody, kept_app, kept_cons, Hm.
  rewrite <- (marked_attribute_spec obj attr).
  destruct (marked_attribute (Attribute obj attr)); split; split.
  - done.
  - done.
  - intros Heq. apply (f_equal length) in Heq.
    rewrite !length_app in Heq. simpl in Heq. lia.
  - intros H. by destruct H.
  - intros Heq. apply (f_equal length) in Heq.
    rewrite !length_app in Heq. simpl in Heq. lia.
  - done.
  - done.
  - done.
Qed.

Lemma marker_is_substring_aio_witness :
  body (override_init
          (method "__init__"
             [ Assign [self_attr "dubaioffice"] (Constant (CStr "DXB"));
               Assign [self_attr "_closed"] (Constant (CBool false)) ]))
  = [ Assign [self_attr "_closed"] (Constant (CBool false)) ].
Proof.
  apply (marker_is_substring_aio _ []
           [Assign [self_attr "_closed"] (Constant (CBool false))]
           (Assign [self_attr "dubaioffice"] (Constant (CStr "DXB")))
           (Name "self") "dubaioffice" (Constant (CStr "DXB"))
           (Name "self") None).
  - reflexivity.
  - by left.
  - by exists "dub", "ffice".
Defined.

(** ** Classification and the traversal of the class *)

Lemma list_in_true (x : string) (l : list string) :
  list_in x l = true <-> x ∈ l.
Proof. unfold list_in. apply bool_decide_eq_true. Qed.

Lemma list_in_false (x : string) (l : list string) :
  list_in x l = false <-> x ∉ l.
Proof. unfold list_in. apply bool_decide_eq_false. Qed.

Lemma _keep_sync_true (self : RemoteFunctionDefTransformer) (m : string) :
  _keep_sync self m = true <-> m ∈ keep_sync self \/ m ∉ async_methods self.
Proof.
  unfold _keep_sync.
  rewrite orb_true_iff, negb_true_iff, list_in_true, list_in_false. done.
Qed.

Lemma _keep_sync_false (self : RemoteFunctionDefTransformer) (m : string) :
  _keep_sync self m = false <-> m ∈ async_methods self /\ m ∉ keep_sync self.
Proof.
  unfold _keep_sync.
  rewrite orb_false_iff, negb_false_iff, list_in_true, list_in_false. tauto.
Qed.

(** [visit_FunctionDef] does to a method what the rule of its name says. *)
Lemma visit_FunctionDef_classify (self : RemoteFunctionDefTransformer) (f : fundef) :
  visit_FunctionDef self f = apply_rule self (classify self (name f)) f.
Proof.
  unfold visit_FunctionDef, classify, super_visit_FunctionDef.
  destruct (list_in (name f) (exclude_methods self)); [done |].
  destruct (String.eqb (name f) "__init__"); [by rewrite generic_visit_id |].
  destruct (String.eqb (name f) "close"); [done |].
  by destruct (_keep_sync self (name f)).
Qed.

Lemma omap_cons {A B : Type} (f : A -> option B) (x : A) (l : list A) :
  omap f (x :: l)
  = match f x with Some y => y :: omap f l | None => omap f l end.
Proof. reflexivity. Qed.

Lemma visit_class_body_acc (self : RemoteFunctionDefTransformer)
    (l acc : list member) :
  visit_class_body self l acc = acc ++ omap (visit self) l.
Proof.
  revert acc. induction l as [|x l IH]; intros acc; csimpl.
  - by rewrite app_nil_r.
  - destruct (visit self x); rewrite IH; [| done].
    by rewrite <- app_assoc.
Qed.

Lemma transform_class_omap (self : RemoteFunctionDefTransformer) (l : list member) :
  transform_class self l = omap (visit self) l.
Proof. unfold transform_class. by rewrite visit_class_body_acc. Qed.

Lemma transform_class_app (self : RemoteFunctionDefTransformer) (l1 l2 : list member) :
  transform_class self (l1 ++ l2) = transform_class self l1 ++ transform_class self l2.
Proof. rewrite !transform_class_omap. apply omap_app. Qed.

Lemma classify_excluded (self : RemoteFunctionDefTransformer) (m : string) :
  classify self m = Excluded <-> m ∈ exclude_methods self.
Proof.
  unfold classify. rewrite <- list_in_true.
  destruct (list_in m (exclude_methods self)); [done |].
  destruct (String.eqb m "__init__"); [done |].
  destruct (String.eqb m "close"); [done |].
  by destruct (_keep_sync self m).
Qed.

Lemma member_name_replacement (self : RemoteFunctionDefTransformer) (f : fundef) :
  member_name (replacement self f) = Some (name f).
Proof.
  unfold replacement, classify.
  destruct (list_in (name f) (exclude_methods self)); [done |].
  destruct (String.eqb (name f) "__init__"); [done |].
  destruct (String.eqb (name f) "close") eqn:Hc.
  - apply String.eqb_eq in Hc. simpl. by rewrite Hc.
  - by destruct (_keep_sync self (name f)).
Qed.

Lemma transform_methods (self : RemoteFunctionDefTransformer) (methods : list fundef) :
  transform_class self (map FunctionDef methods)
  = map (replacement self)
        (List.filter (fun f => negb (excluded self f)) methods).
Proof.
  rewrite transform_class_omap.
  induction methods as [|f methods IH]; [done |].
  simpl map. rewrite omap_cons, IH. simpl visit.
  rewrite visit_FunctionDef_classify.
  unfold excluded, replacement. simpl List.filter.
  destruct (list_in (name f) (exclude_methods self)) eqn:He; simpl.
  - apply list_in_true, classify_excluded in He. by rewrite He.
  - destruct (classify self (name f)) eqn:Hc; try done.
    apply classify_excluded, list_in_true in Hc. congruence.
Qed.

(** C1. A method that is neither excluded nor the constructor nor the
    shutdown method is kept synchronous exactly when its name is in
    [keep_sync] or is not in [async_methods], and converted exactly when it
    is in [async_methods] and not in [keep_sync]; a name in both lists is
    kept synchronous. A kept method comes out of [visit_FunctionDef] as it
    went in. *)
Theorem keep_sync_iff (self : RemoteFunctionDefTransformer) (m : string) :
  m ∉ exclude_methods self ->
  m <> "__init__" ->
  m <> "close" ->
  (_keep_sync self m = true <-> m ∈ keep_sync self \/ m ∉ async_methods self)
  /\ (classify self m = KeptSync
      <-> m ∈ keep_sync self \/ m ∉ async_methods self)
  /\ (classify self m = Converted
      <-> m ∈ async_methods self /\ m ∉ keep_sync self)
  /\ (m ∈ keep_sync self -> m ∈ async_methods self -> classify self m = KeptSync)
  /\ forall f, name f = m ->
       (visit_FunctionDef self f = Some (FunctionDef f)
        <-> m ∈ keep_sync self \/ m ∉ async_methods self).
Proof.
  intros He Hi Hc.
  apply list_in_false in He. apply String.eqb_neq in Hi, Hc.
  assert (Hk : classify self m = if _keep_sync self m then KeptSync else Converted).
  { unfold classify. by rewrite He, Hi, Hc. }
  split; [apply _keep_sync_true |].
  split; [| split; [| split]].
  - rewrite Hk, <- _keep_sync_true. by destruct (_keep_sync self m).
  - rewrite Hk, <- _keep_sync_false. by destruct (_keep_sync self m).
  - intros H1 H2. rewrite Hk.
    assert (H : _keep_sync self m = true) by (apply _keep_sync_true; by left).
    by rewrite H.
  - intros f <-. rewrite visit_FunctionDef_classify, Hk, <- _keep_sync_true.
    by destruct (_keep_sync self (name f)).
Qed.

Lemma keep_sync_iff_witness :
  classify sample_policy "search" = KeptSync.
Proof.
  apply (keep_sync_iff sample_policy "search").
  - by apply list_in_false.
  - done.
  - done.
  - by apply list_in_true.
  - by apply list_in_true.
Defined.

(** C2. The members of the output class are the rewrites of the methods that
    are not excluded, in the order of the input: an excluded method is left
    out whatever else is said of its name (the constructor and the shutdown
    method too), the constructor and the shutdown method are replaced where
    they stood by what their overrides make, every method keeps its name, and
    no method of the output has an excluded name. *)
Theorem transform_class_keeps_order
    (self : RemoteFunctionDefTransformer) (methods : list fundef) :
  let out := transform_class self (map FunctionDef methods) in
  let remaining := List.filter (fun f => negb (excluded self f)) methods in
  out = map (replacement self) remaining
  /\ map member_name out = map (fun f => Some (name f)) remaining
  /\ (forall m, m ∈ exclude_methods self -> ~ In (Some m) (map member_name out))
  /\ (forall f, In f remaining -> name f = "__init__" ->
        replacement self f = FunctionDef (override_init f))
  /\ (forall f, In f remaining -> name f = "close" ->
        replacement self f = override_close).
Proof.
  intros out remaining.
  assert (Hout : out = map (replacement self) remaining)
    by apply transform_methods.
  assert (Hnames : map member_name out = map (fun f => Some (name f)) remaining).
  { rewrite Hout, List.map_map. apply List.map_ext. apply member_name_replacement. }
  assert (Hrem : forall f, In f remaining ->
                   list_in (name f) (exclude_methods self) = false).
  { intros f Hf. apply List.filter_In in Hf as [_ Hf].
    by apply negb_true_iff in Hf. }
  split; [done |]. split; [done |]. split; [| split].
  - intros m Hm. rewrite Hnames. intros Hin.
    apply List.in_map_iff in Hin as (f & Hf & Hin).
    apply Hrem in Hin. apply list_in_false in Hin. congruence.
  - intros f Hf Hn. apply Hrem in Hf.
    unfold replacement, classify. by rewrite Hf, Hn.
  - intros f Hf Hn. apply Hrem in Hf.
    unfold replacement, classify. by rewrite Hf, Hn.
Qed.

Lemma transform_class_keeps_order_witness :
  map member_name (transform_class sample_policy (map FunctionDef sample_methods))
  = [Some "__init__"; Some "search"; Some "upsert"; Some "close"].
Proof.
  rewrite (proj1 (proj2 (transform_class_keeps_order sample_policy sample_methods))).
  reflexivity.
Defined.

(** C5 (as the code has it). An assignment whose target is no attribute
    reference is no error for the construction override: the target is
    passed over in the search for the marker. The run goes on, the
    constructor is part of the output, and every statement without a marked
    attribute target, such an assignment included, is in its body. *)
Theorem override_init_skips_other_targets
    (self : RemoteFunctionDefTransformer) (sync_node : fundef) (s : stmt) :
  name sync_node = "__init__" ->
  "__init__" ∉ exclude_methods self ->
  In s (body sync_node) ->
  unmatched_assignment s = true ->
  marked_assignment s = false ->
  visit_FunctionDef self sync_node = Some (FunctionDef (override_init sync_node))
  /\ transform_class self [FunctionDef sync_node]
     = [FunctionDef (override_init sync_node)]
  /\ In s (body (override_init sync_node)).
Proof.
  intros Hn He Hin _ Hm.
  assert (Hv : visit_FunctionDef self sync_node
               = Some (FunctionDef (override_init sync_node))).
  { rewrite visit_FunctionDef_classify. unfold classify.
    apply list_in_false in He. by rewrite Hn, He. }
  split; [done |]. split.
  - rewrite transform_class_omap, omap_cons. simpl visit. by rewrite Hv.
  - rewrite override_init_kept, kept_filter. apply List.filter_In.
    by rewrite Hm.
Qed.

Lemma override_init_skips_other_targets_witness :
  In (Assign [Name "limits"] (Constant (CInt 10)))
     (body (override_init sample_init)).
Proof.
  apply (override_init_skips_other_targets sample_policy sample_init
           (Assign [Name "limits"] (Constant (CInt 10)))).
  - reflexivity.
  - by apply list_in_false.
  - simpl. tauto.
  - reflexivity.
  - reflexivity.
Defined.

(** C5 fails as stated: a constructor whose only statement assigns to a
    plain name has a shape the override does not match, and yet the run
    ends without an error and hands the constructor, unchanged, on. *)
Lemma unmatched_shape_is_no_error :
  existsb unmatched_assignment (body plain_name_init) = true
  /\ visit_FunctionDef sample_policy plain_name_init
     = Some (FunctionDef plain_name_init)
  /\ transform_class sample_policy [FunctionDef plain_name_init]
     = [FunctionDef plain_name_init].
Proof. repeat split. Qed.

(** C7. The rule applied to a method is a function of its name and of the
    policy as three sets of names: two policies with the same members give
    the same classification, and so do two runs with one policy. What the
    traversal makes of a method is what that rule makes of it, wherever the
    method stands in the class and whatever the other members are; the
    members of the output do not depend on the order of the traversal. *)
Theorem classification_is_a_function
    (self self' : RemoteFunctionDefTransformer) (m : string) :
  (forall x, x ∈ keep_sync self <-> x ∈ keep_sync self') ->
  (forall x, x ∈ exclude_methods self <-> x ∈ exclude_methods self') ->
  (forall x, x ∈ async_methods self <-> x ∈ async_methods self') ->
  classify self m = classify self' m
  /\ (forall f, name f = m ->
        visit_FunctionDef self f = apply_rule self (classify self m) f)
  /\ (forall f before after, name f = m ->
        transform_class self (before ++ FunctionDef f :: after)
        = transform_class self before
          ++ option_list (apply_rule self (classify self m) f)
          ++ transform_class self after)
  /\ (forall class_body class_body',
        class_body ≡ₚ class_body' ->
        transform_class self class_body ≡ₚ transform_class self class_body').
Proof.
  intros Hk He Ha. split; [| split; [| split]].
  - unfold classify, _keep_sync, list_in.
    rewrite (bool_decide_ext _ _ (He m)), (bool_decide_ext _ _ (Hk m)),
      (bool_decide_ext _ _ (Ha m)). done.
  - intros f <-. apply visit_FunctionDef_classify.
  - intros f before after <-.
    rewrite transform_class_app. f_equal.
    rewrite !transform_class_omap, omap_cons. simpl visit.
    rewrite visit_FunctionDef_classify.
    by destruct (apply_rule self (classify self (name f)) f).
  - intros l l' Hp. rewrite !transform_class_omap. by rewrite Hp.
Qed.

Lemma classification_is_a_function_witness :
  classify sample_policy "upsert"
  = classify (__init__ (Some ["search"; "search"]) (Some ["delete_all"])
                   (Some ["query"; "upsert"; "search"])) "upsert".
Proof.
  apply (classification_is_a_function sample_policy
           (__init__ (Some ["search"; "search"]) (Some ["delete_all"])
                 (Some ["query"; "upsert"; "search"])) "upsert").
  - intros x. simpl. rewrite !elem_of_cons. tauto.
  - intros x. simpl. tauto.
  - intros x. simpl. rewrite !elem_of_cons. tauto.
Defined.

(** C6. For a method classified [Converted], the traversal yields the
    generic conversion of the method, and converting again changes nothing:
    the rule returns a method in suspending form as it is, and the traversal
    does not reach the rule for such a method. *)
Theorem generic_conversion_idempotent
    (self : RemoteFunctionDefTransformer) (f : fundef) :
  classify self (name f) = Converted ->
  let once := generic_convert (async_methods self) (FunctionDef f) in
  visit_FunctionDef self f = Some once
  /\ generic_convert (async_methods self) once = once
  /\ visit self once = Some once
  /\ exists g, once = AsyncFunctionDef g /\ name g = name f.
Proof.
  intros Hc once. split; [| split; [| split]].
  - by rewrite visit_FunctionDef_classify, Hc.
  - reflexivity.
  - unfold once. simpl generic_convert. unfold visit.
    by rewrite generic_visit_id.
  - by eexists.
Qed.

Lemma generic_conversion_idempotent_witness :
  let upsert :=
    method "upsert" [Expr (Call (self_attr "search") [] []);
                     Return (Some (Call (self_attr "_send") [] []))] in
  let once := generic_convert (async_methods sample_policy) (FunctionDef upsert) in
  once = AsyncFunctionDef
           (method "upsert"
              [Expr (Await (Call (self_attr "search") [] []));
               Return (Some (Call (self_attr "_send") [] []))])
  /\ generic_convert (async_methods sample_policy) once = once.
Proof.
  intros upsert once. split; [reflexivity |].
  apply (generic_conversion_idempotent sample_policy upsert). reflexivity.
Defined.

(** ** Evaluation rules

    The equations of the evaluator in the form of rules: what a construct
    evaluates to, given what its parts evaluate to. *)

Section Rules.

Variable w : transports.

Lemma eval_Attribute_rule value attr st v st1 :
  eval w value st = (Ok v, st1) ->
  eval w (Attribute value attr) st = getattr v attr st1.
Proof. intros H. simpl. unfold bind. by rewrite H. Qed.

Lemma eval_Attribute_raise value attr st e st1 :
  eval w value st = (Raise e, st1) ->
  eval w (Attribute value attr) st = (Raise e, st1).
Proof. intros H. simpl. unfold bind. by rewrite H. Qed.

Lemma eval_args_nil st : eval_args (eval w) [] st = (Ok [], st).
Proof. reflexivity. Qed.

Lemma eval_args_cons e es st v st1 vs st2 :
  eval w e st = (Ok v, st1) ->
  eval_args (eval w) es st1 = (Ok vs, st2) ->
  eval_args (eval w) (e :: es) st = (Ok (v :: vs), st2).
Proof. intros H1 H2. simpl. unfold bind. by rewrite H1, H2. Qed.

Lemma eval_keywords_nil st : eval_keywords (eval w) [] st = (Ok [], st).
Proof. reflexivity. Qed.

Lemma eval_keywords_cons k e ks st v st1 kvs st2 :
  eval w e st = (Ok v, st1) ->
  eval_keywords (eval w) ks st1 = (Ok kvs, st2) ->
  eval_keywords (eval w) ((k, e) :: ks) st = (Ok ((k, v) :: kvs), st2).
Proof. intros H1 H2. simpl. unfold bind. by rewrite H1, H2. Qed.

Lemma eval_Call_rule func args keywords st f st1 vs st2 kws st3 :
  eval w func st = (Ok f, st1) ->
  eval_args (eval w) args st1 = (Ok vs, st2) ->
  eval_keywords (eval w) keywords st2 = (Ok kws, st3) ->
  eval w (Call func args keywords) st = call_value w f vs kws st3.
Proof. intros H1 H2 H3. simpl. unfold bind. by rewrite H1, H2, H3. Qed.

Lemma eval_Call_raise func args keywords st e st1 :
  eval w func st = (Raise e, st1) ->
  eval w (Call func args keywords) st = (Raise e, st1).
Proof. intros H1. simpl. unfold bind. by rewrite H1. Qed.

Lemma eval_And_rule e1 e2 st v st1 :
  eval w e1 st = (Ok v, st1) ->
  eval w (BoolOp And [e1; e2]) st
  = if truthy v then eval w e2 st1 else (Ok v, st1).
Proof. intros H. simpl. unfold bind. rewrite H. by destruct (truthy v). Qed.

Lemma eval_Compare_rule lhs op comparator st v1 st1 v2 st2 :
  eval w lhs st = (Ok v1, st1) ->
  eval w comparator st1 = (Ok v2, st2) ->
  eval w (Compare lhs op comparator) st = (Ok (compare op v1 v2), st2).
Proof. intros H1 H2. simpl. unfold bind. by rewrite H1, H2. Qed.

Lemma exec_Expr_rule value st r st1 :
  eval w value st = (r, st1) ->
  exec w (Expr value) st = finish (r, st1).
Proof. intros H. simpl. by rewrite H. Qed.

Lemma exec_block_nil st : exec_block w [] st = (Normal, st).
Proof. reflexivity. Qed.

Lemma exec_block_cons s l st st1 :
  exec w s st = (Normal, st1) ->
  exec_block w (s :: l) st = exec_block w l st1.
Proof. intros H. unfold exec_block. simpl. by rewrite H. Qed.

Lemma exec_block_raised s l st e st1 :
  exec w s st = (Raised e, st1) ->
  exec_block w (s :: l) st = (Raised e, st1).
Proof. intros H. unfold exec_block. simpl. by rewrite H. Qed.

Lemma exec_If_rule test body orelse st v st1 :
  eval w test st = (Ok v, st1) ->
  exec w (If test body orelse) st
  = if truthy v then exec_block w body st1 else exec_block w orelse st1.
Proof. intros H. simpl. by rewrite H. Qed.

Lemma exec_Try_normal body handlers st st1 :
  exec_block w body st = (Normal, st1) ->
  exec w (Try body handlers [] []) st = (Normal, st1).
Proof. unfold exec_block. intros H. simpl. by rewrite H. Qed.

Lemma exec_Try_raised body handlers st e st1 :
  exec_block w body st = (Raised e, st1) ->
  exec w (Try body handlers [] []) st
  = match exec_handlers (exec w) handlers e st1 with
    | (Stuck, st2) => (Stuck, st2)
    | r => r
    end.
Proof.
  unfold exec_block. intros H. simpl. rewrite H.
  by destruct (exec_handlers (exec w) handlers e st1) as [[] ?].
Qed.

Lemma exec_handlers_caught type hbody handlers e st :
  catches type e = Some true ->
  exec_handlers (exec w) ((type, hbody) :: handlers) e st
  = exec_block w hbody st.
Proof. intros H. simpl. by rewrite H. Qed.

Lemma exec_handlers_passed type hbody handlers e st :
  catches type e = Some false ->
  exec_handlers (exec w) ((type, hbody) :: handlers) e st
  = exec_handlers (exec w) handlers e st.
Proof. intros H. simpl. by rewrite H. Qed.

End Rules.

(** ** The shutdown override *)

Section Shutdown.

Variable w : transports.
Variables grace kwargs : value.

Local Abbreviation in_close := (within_close grace kwargs).

Lemma eval_self st : in_close st -> eval w (Name "self") st = (Ok VSelf, st).
Proof. unfold within_close. simpl. unfold lookup_name. by intros ->. Qed.

Lemma eval_grace st :
  in_close st -> eval w (Name "grpc_grace") st = (Ok grace, st).
Proof. unfold within_close. simpl. unfold lookup_name. by intros ->. Qed.

Lemma eval_global id st :
  in_close st -> id ∈ module_globals ->
  eval w (Name id) st = (Ok (VGlobal id), st).
Proof.
  unfold within_close. simpl. unfold lookup_name. intros -> H.
  unfold module_globals in H.
  repeat (apply elem_of_cons in H as [-> | H]; [reflexivity |]).
  by apply elem_of_nil in H.
Qed.

Lemma eval_self_attr (a : string) st :
  in_close st ->
  eval w (Attribute (Name "self") a) st
  = match self_dict st !! a with
    | Some x => (Ok x, st)
    | None => (Raise AttributeError, st)
    end.
Proof. intros H. by rewrite (eval_Attribute_rule w _ _ _ _ _ (eval_self st H)). Qed.

Lemma exec_show_warning (message : string) st :
  in_close st ->
  exec w (show_warning_call message) st = (Normal, record_warning message st).
Proof.
  intros H. unfold show_warning_call.
  erewrite exec_Expr_rule; cycle 1.
  { erewrite eval_Call_rule; cycle 1.
    - apply eval_global; [done | set_solver].
    - apply eval_args_nil.
    - eapply eval_keywords_cons; [reflexivity |].
      eapply eval_keywords_cons; [apply eval_global; [done | set_solver] |].
      eapply eval_keywords_cons; [reflexivity |].
      apply eval_keywords_nil.
    - reflexivity. }
  reflexivity.
Qed.

Lemma eval_channel_test st :
  in_close st ->
  eval w (BoolOp And
            [Call (Name "hasattr") [Name "self"; Constant (CStr "_grpc_channel")] [];
             Compare (Attribute (Name "self") "_grpc_channel") IsNot (Constant CNone)])
       st
  = (Ok (VBool (channel_open st)), st).
Proof.
  intros H.
  erewrite eval_And_rule; cycle 1.
  { erewrite eval_Call_rule; cycle 1.
    - apply eval_global; [done | set_solver].
    - eapply eval_args_cons; [by apply eval_self |].
      eapply eval_args_cons; [reflexivity |]. apply eval_args_nil.
    - apply eval_keywords_nil.
    - reflexivity. }
  unfold channel_open.
  destruct (self_dict st !! "_grpc_channel") as [v|] eqn:E.
  2: { rewrite bool_decide_eq_false_2; [done | by intros [? ?]]. }
  rewrite bool_decide_eq_true_2 by eauto. cbn [truthy].
  erewrite eval_Compare_rule; cycle 1.
  - by rewrite eval_self_attr, E.
  - reflexivity.
  - reflexivity.
Qed.

Lemma exec_close_channel st :
  in_close st ->
  transport_slot (self_dict st !! "_grpc_channel") = true ->
  (forall c n e, w c "close" n = Some e -> channel_guarded e = true) ->
  exec w close_channel_stmt st = (Normal, after_channel_close w st).
Proof.
  intros H Hslot Hw. unfold close_channel_stmt, after_channel_close.
  rewrite (exec_If_rule w _ _ _ _ _ _ (eval_channel_test st H)).
  unfold channel_open.
  destruct (self_dict st !! "_grpc_channel") as [[]|] eqn:E; try done.
  simpl truthy. cbv iota.
  assert (Hcall :
    eval w (Await (Call (Attribute (Attribute (Name "self") "_grpc_channel") "close")
                        [] [("grace", Name "grpc_grace")])) st
    = call_value w (VMethod o "close") [] [("grace", grace)] st).
  { change (eval w (Await ?e)) with (eval w e).
    eapply eval_Call_rule.
    - erewrite eval_Attribute_rule; cycle 1.
      + by rewrite eval_self_attr, E.
      + reflexivity.
    - apply eval_args_nil.
    - eapply eval_keywords_cons; [by apply eval_grace |].
      apply eval_keywords_nil. }
  unfold call_value in Hcall.
  destruct (w o "close" (count_invocations o "close" (invocations st)))
    as [e|] eqn:Ew.
  - erewrite exec_block_cons; [apply exec_block_nil |].
    erewrite exec_Try_raised; cycle 1.
    { erewrite exec_block_raised; [reflexivity |].
      by rewrite (exec_Expr_rule w _ _ _ _ Hcall). }
    specialize (Hw _ _ _ Ew).
    destruct e; try discriminate Hw.
    + erewrite exec_handlers_caught; [| reflexivity].
      erewrite exec_block_cons; [by rewrite exec_block_nil |].
      by apply exec_show_warning.
    + erewrite exec_handlers_passed; [| reflexivity].
      erewrite exec_handlers_caught; [| reflexivity].
      reflexivity.
  - erewrite exec_block_cons; [apply exec_block_nil |].
    apply exec_Try_normal.
    erewrite exec_block_cons; [apply exec_block_nil |].
    by rewrite (exec_Expr_rule w _ _ _ _ Hcall).
Qed.

Lemma catches_Exception (e : exn) :
  catches (Some (Name "Exception")) e = Some (is_Exception e).
Proof. reflexivity. Qed.

Lemma exec_close_http st :
  in_close st ->
  transport_slot (self_dict st !! "http") = true ->
  (forall h n e, w h "aclose" n = Some e -> is_Exception e = true) ->
  exec w close_http_stmt st = (Normal, after_http_close w st).
Proof.
  intros H Hslot Hw. unfold close_http_stmt, after_http_close.
  assert (Hwarn : forall st1, in_close st1 ->
            exec_handlers (exec w)
              [(Some (Name "Exception"), [show_warning_call http_message])]
              AttributeError st1
            = (Normal, record_warning http_message st1)).
  { intros st1 H1. erewrite exec_handlers_caught; [| reflexivity].
    erewrite exec_block_cons; [by rewrite exec_block_nil |].
    by apply exec_show_warning. }
  destruct (self_dict st !! "http") as [[]|] eqn:E; try done.
  - (* the attribute holds [None] *)
    erewrite exec_Try_raised; cycle 1.
    { erewrite exec_block_raised; [reflexivity |].
      erewrite exec_Expr_rule; cycle 1.
      - change (eval w (Await ?e)) with (eval w e).
        eapply eval_Call_raise.
        erewrite eval_Attribute_rule; cycle 1.
        + by rewrite eval_self_attr, E.
        + reflexivity.
      - reflexivity. }
    by rewrite (Hwarn st H).
  - (* the attribute holds a transport *)
    assert (Hcall :
      eval w (Await (Call (Attribute (Attribute (Name "self") "http") "aclose") [] [])) st
      = call_value w (VMethod o "aclose") [] [] st).
    { change (eval w (Await ?e)) with (eval w e).
      eapply eval_Call_rule.
      - erewrite eval_Attribute_rule; cycle 1.
        + by rewrite eval_self_attr, E.
        + reflexivity.
      - apply eval_args_nil.
      - apply eval_keywords_nil. }
    unfold call_value in Hcall.
    destruct (w o "aclose" (count_invocations o "aclose" (invocations st)))
      as [e|] eqn:Ew.
    + erewrite exec_Try_raised; cycle 1.
      { erewrite exec_block_raised; [reflexivity |].
        by rewrite (exec_Expr_rule w _ _ _ _ Hcall). }
      erewrite exec_handlers_caught; cycle 1.
      { by rewrite catches_Exception, (Hw _ _ _ Ew). }
      erewrite exec_block_cons; [by rewrite exec_block_nil |].
      by apply exec_show_warning.
    + apply exec_Try_normal.
      erewrite exec_block_cons; [apply exec_block_nil |].
      by rewrite (exec_Expr_rule w _ _ _ _ Hcall).
  - (* the attribute is not there *)
    erewrite exec_Try_raised; cycle 1.
    { erewrite exec_block_raised; [reflexivity |].
      erewrite exec_Expr_rule; cycle 1.
      - change (eval w (Await ?e)) with (eval w e).
        eapply eval_Call_raise.
        eapply eval_Attribute_raise.
        by rewrite eval_self_attr, E.
      - reflexivity. }
    by rewrite (Hwarn st H).
Qed.

Lemma exec_set_closed st :
  in_close st ->
  exec w set_closed_stmt st = (Normal, store_attr "_closed" (VBool true) st).
Proof.
  unfold within_close. destruct st as [d l ws calls]. simpl. by intros ->.
Qed.

Lemma after_channel_close_self_dict st :
  self_dict (after_channel_close w st) = self_dict st.
Proof.
  unfold after_channel_close.
  destruct (self_dict st !! "_grpc_channel") as [[]|]; try done.
  by destruct (w _ _ _) as [[]|].
Qed.

Lemma after_http_close_self_dict st :
  self_dict (after_http_close w st) = self_dict st.
Proof.
  unfold after_http_close.
  destruct (self_dict st !! "http") as [[]|]; try done.
  by destruct (w _ _ _).
Qed.

Lemma after_channel_close_in_close st :
  in_close st -> in_close (after_channel_close w st).
Proof.
  unfold after_channel_close, within_close.
  destruct (self_dict st !! "_grpc_channel") as [[]|]; try done.
  by destruct (w _ _ _) as [[]|].
Qed.

Lemma after_http_close_in_close st :
  in_close st -> in_close (after_http_close w st).
Proof.
  unfold after_http_close, within_close.
  destruct (self_dict st !! "http") as [[]|]; try done.
  by destruct (w _ _ _).
Qed.

Lemma exec_close_body st :
  in_close st ->
  transport_slot (self_dict st !! "_grpc_channel") = true ->
  transport_slot (self_dict st !! "http") = true ->
  (forall c n e, w c "close" n = Some e -> channel_guarded e = true) ->
  (forall h n e, w h "aclose" n = Some e -> is_Exception e = true) ->
  exec_block w (body close_template) st
  = (Normal,
     store_attr "_closed" (VBool true)
       (after_http_close w (after_channel_close w st))).
Proof.
  intros H Hc Hh Hwc Hwh. simpl body.
  erewrite exec_block_cons; [| by apply exec_close_channel].
  erewrite exec_block_cons; cycle 1.
  { apply exec_close_http; [by apply after_channel_close_in_close | | done].
    by rewrite after_channel_close_self_dict. }
  erewrite exec_block_cons; [apply exec_block_nil |].
  apply exec_set_closed.
  by apply after_http_close_in_close, after_channel_close_in_close.
Qed.

Lemma transport_slot_cases (v : option value) :
  field_slot v = true ->
  transport_slot v = true
  \/ exists x, v = Some x /\ x <> VNone
                /\ getattr x "close" = raise AttributeError
                /\ getattr x "aclose" = raise AttributeError
                /\ match x with VBool _ | VInt _ | VStr _ => True | _ => False end.
Proof.
  destruct v as [[]|]; intros H; try discriminate H; try (by left);
    right; eexists; repeat split; done.
Qed.

Lemma exec_close_channel_field st :
  in_close st ->
  field_slot (self_dict st !! "_grpc_channel") = true ->
  (forall c n e, w c "close" n = Some e -> channel_guarded e = true) ->
  exec w close_channel_stmt st = (Normal, after_channel_close w st).
Proof.
  intros H Hslot Hw.
  destruct (transport_slot_cases _ Hslot) as [Ht | (x & E & Hx & Hg & _ & Hk)];
    [by apply exec_close_channel |].
  unfold close_channel_stmt, after_channel_close.
  rewrite (exec_If_rule w _ _ _ _ _ _ (eval_channel_test st H)).
  unfold channel_open. rewrite E.
  assert (Ho : negb (bool_decide (x = VNone)) = true).
  { by rewrite bool_decide_eq_false_2. }
  rewrite Ho. simpl truthy. cbv iota.
  assert (Hst : (match x with
                 | VObject c =>
                     match w c "close"
                             (count_invocations c "close" (invocations st)) with
                     | Some AttributeError =>
                         record_warning grpc_message
                           (record_invocation c "close" st)
                     | _ => record_invocation c "close" st
                     end
                 | VBool _ | VInt _ | VStr _ => record_warning grpc_message st
                 | _ => st
                 end) = record_warning grpc_message st).
  { by destruct x. }
  rewrite Hst.
  erewrite exec_block_cons; [apply exec_block_nil |].
  erewrite exec_Try_raised; cycle 1.
  { erewrite exec_block_raised; [reflexivity |].
    erewrite exec_Expr_rule; cycle 1.
    - change (eval w (Await ?e)) with (eval w e).
      eapply eval_Call_raise.
      erewrite eval_Attribute_rule; cycle 1.
      + by rewrite eval_self_attr, E.
      + by rewrite Hg.
    - reflexivity. }
  erewrite exec_handlers_caught; [| reflexivity].
  erewrite exec_block_cons; [by rewrite exec_block_nil |].
  by apply exec_show_warning.
Qed.

Lemma exec_close_http_field st :
  in_close st ->
  field_slot (self_dict st !! "http") = true ->
  (forall h n e, w h "aclose" n = Some e -> is_Exception e = true) ->
  exec w close_http_stmt st = (Normal, after_http_close w st).
Proof.
  intros H Hslot Hw.
  destruct (transport_slot_cases _ Hslot) as [Ht | (x & E & Hx & _ & Hg & Hk)];
    [by apply exec_close_http |].
  unfold close_http_stmt, after_http_close. rewrite E.
  assert (Hst : (match x with
                 | VObject h =>
                     match w h "aclose"
                             (count_invocations h "aclose" (invocations st)) with
                     | Some _ =>
                         record_warning http_message
                           (record_invocation h "aclose" st)
                     | None => record_invocation h "aclose" st
                     end
                 | _ => record_warning http_message st
                 end) = record_warning http_message st).
  { by destruct x. }
  rewrite Hst.
  erewrite exec_Try_raised; cycle 1.
  { erewrite exec_block_raised; [reflexivity |].
    erewrite exec_Expr_rule; cycle 1.
    - change (eval w (Await ?e)) with (eval w e).
      eapply eval_Call_raise.
      erewrite eval_Attribute_rule; cycle 1.
      + by rewrite eval_self_attr, E.
      + by rewrite Hg.
    - reflexivity. }
  erewrite exec_handlers_caught; [| reflexivity].
  erewrite exec_block_cons; [by rewrite exec_block_nil |].
  by apply exec_show_warning.
Qed.

Lemma exec_close_body_field st :
  in_close st ->
  field_slot (self_dict st !! "_grpc_channel") = true ->
  field_slot (self_dict st !! "http") = true ->
  (forall c n e, w c "close" n = Some e -> channel_guarded e = true) ->
  (forall h n e, w h "aclose" n = Some e -> is_Exception e = true) ->
  exec_block w (body close_template) st
  = (Normal,
     store_attr "_closed" (VBool true)
       (after_http_close w (after_channel_close w st))).
Proof.
  intros H Hc Hh Hwc Hwh. simpl body.
  erewrite exec_block_cons; [| by apply exec_close_channel_field].
  erewrite exec_block_cons; cycle 1.
  { apply exec_close_http_field; [by apply after_channel_close_in_close | | done].
    by rewrite after_channel_close_self_dict. }
  erewrite exec_block_cons; [apply exec_block_nil |].
  apply exec_set_closed.
  by apply after_http_close_in_close, after_channel_close_in_close.
Qed.

End Shutdown.

Lemma field_slot_client_dict (fields : gmap string field) (a : string) :
  field_slot (client_dict fields !! a) = true.
Proof.
  unfold client_dict. rewrite lookup_fmap.
  by destruct (fields !! a) as [[]|].
Qed.

Lemma visit_close (self : RemoteFunctionDefTransformer) (f : fundef) :
  name f = "close" ->
  "close" ∉ exclude_methods self ->
  visit_FunctionDef self f = Some override_close.
Proof.
  intros Hn He. unfold visit_FunctionDef.
  apply list_in_false in He. by rewrite Hn, He.
Qed.

(** C3 (as the code has it). Whatever the body of the input shutdown method,
    the override puts in its place one fixed asynchronous method [close],
    whose body is the channel step, the HTTP step and the setting of the
    closed flag. Run on any client, in a world where the channel close fails
    with attribute-not-found or invalid-runtime-state errors only and the
    HTTP close with errors derived from [Exception] only, that method ends
    normally even when every close call raises: the channel is closed when it
    is there (the first error reported as a warning, the second passed over),
    the HTTP client is closed in any case (every error reported as a
    warning), and the closed flag is set last. *)
Theorem shutdown_sets_closed_flag
    (self : RemoteFunctionDefTransformer) (f : fundef) (w : transports)
    (grace kwargs : value) (fields : gmap string field)
    (calls : list (string * string)) :
  name f = "close" ->
  "close" ∉ exclude_methods self ->
  (forall c n e, w c "close" n = Some e -> channel_guarded e = true) ->
  (forall h n e, w h "aclose" n = Some e -> is_Exception e = true) ->
  exists g st',
    visit_FunctionDef self f = Some (AsyncFunctionDef g)
    /\ name g = "close"
    /\ body g = [close_channel_stmt; close_http_stmt; set_closed_stmt]
    /\ call_method w g (close_actuals grace kwargs) (client_dict fields) calls
       = (Normal, st')
    /\ st' = store_attr "_closed" (VBool true)
               (after_http_close w
                  (after_channel_close w
                     (mk_state (client_dict fields)
                        (close_frame grace kwargs) [] calls)))
    /\ self_dict st' = <["_closed" := VBool true]> (client_dict fields)
    /\ self_dict st' !! "_closed" = Some (VBool true).
Proof.
  intros Hn He Hwc Hwh.
  set (st0 := mk_state (client_dict fields) (close_frame grace kwargs) [] calls).
  assert (Hd : self_dict
                 (store_attr "_closed" (VBool true)
                    (after_http_close w (after_channel_close w st0)))
               = <["_closed" := VBool true]> (client_dict fields)).
  { simpl. by rewrite after_http_close_self_dict, after_channel_close_self_dict. }
  exists close_template,
    (store_attr "_closed" (VBool true)
       (after_http_close w (after_channel_close w st0))).
  split; [by apply visit_close |].
  split; [reflexivity |]. split; [reflexivity |].
  split; [| split; [reflexivity | split; [exact Hd |]]].
  - unfold call_method. fold st0.
    apply (exec_close_body_field w grace kwargs); try done;
      apply field_slot_client_dict.
  - rewrite Hd. apply lookup_insert_eq.
Qed.

Lemma shutdown_sets_closed_flag_witness :
  exists g st',
    visit_FunctionDef sample_policy (method "close" [])
    = Some (AsyncFunctionDef g)
    /\ call_method (always_raises AttributeError) g
         (close_actuals VNone VNone)
         (client_dict {[ "_grpc_channel" := FObject "channel";
                         "http" := FObject "http" ]}) []
       = (Normal, st')
    /\ self_dict st' !! "_closed" = Some (VBool true)
    /\ warnings st' = [grpc_message; http_message]
    /\ invocations st' = [("channel", "close"); ("http", "aclose")].
Proof.
  destruct (shutdown_sets_closed_flag sample_policy
              (method "close" []) (always_raises AttributeError)
              VNone VNone
              {[ "_grpc_channel" := FObject "channel";
                 "http" := FObject "http" ]} [])
    as (g & st' & Hv & _ & _ & Hrun & Hst & _ & Hflag).
  - reflexivity.
  - by apply list_in_false.
  - intros c n e [= <-]. reflexivity.
  - intros h n e [= <-]. reflexivity.
  - exists g, st'. split; [exact Hv |]. split; [exact Hrun |].
    split; [exact Hflag |]. rewrite Hst. split; reflexivity.
Defined.

(** C3 fails as stated: let every close call raise, at every invocation, an
    error of a class the channel close is not guarded against. Run on a
    client with both transports, the method the override produces ends with
    that error: the HTTP client is never closed and the closed flag is not
    set. *)
Lemma shutdown_can_raise :
  exists g,
    visit_FunctionDef sample_policy (method "close" [])
    = Some (AsyncFunctionDef g)
    /\ let run :=
         call_method (always_raises (OtherError "AioRpcError")) g
           (close_actuals VNone VNone) open_client [] in
       run.1 = Raised (OtherError "AioRpcError")
       /\ self_dict run.2 !! "_closed" = None
       /\ invocations run.2 = [("channel", "close")].
Proof. exists close_template. vm_compute. repeat split. Qed.

(** * Further properties *)

(** ** The construction override *)

Lemma filter_unmarked_idem (l : list stmt) :
  List.filter (fun s => negb (marked_assignment s))
    (List.filter (fun s => negb (marked_assignment s)) l)
  = List.filter (fun s => negb (marked_assignment s)) l.
Proof.
  induction l as [|s l IH]; [done |]. simpl.
  destruct (marked_assignment s) eqn:Hs; simpl; [done |].
  by rewrite Hs, IH.
Qed.

Lemma kept_unmarked (l : list stmt) :
  kept l = l <-> Forall (fun s => marked_assignment s = false) l.
Proof.
  rewrite kept_filter. induction l as [|s l IH]; simpl.
  - split; [constructor | done].
  - destruct (marked_assignment s) eqn:Hs; simpl.
    + split.
      * intros Heq. apply (f_equal length) in Heq. simpl in Heq.
        pose proof (List.filter_length_le
                      (fun s => negb (marked_assignment s)) l). lia.
      * intros H. apply Forall_cons in H as [H _]. congruence.
    + rewrite Forall_cons. split.
      * intros [= Heq]. split; [done | by apply IH].
      * intros [_ H]. f_equal. by apply IH.
Qed.

Lemma fundef_eq_body (f g : fundef) :
  name f = name g -> params f = params g -> body f = body g ->
  decorator_list f = decorator_list g -> returns f = returns g -> f = g.
Proof. destruct f, g. simpl. by intros -> -> -> -> ->. Qed.

(** X1. Running [override_init] on its own result changes nothing. *)
Theorem override_init_idempotent (sync_node : fundef) :
  override_init (override_init sync_node) = override_init sync_node.
Proof.
  apply fundef_eq_body; try reflexivity.
  by rewrite !override_init_body, filter_unmarked_idem.
Qed.

(** X2. The body [override_init] leaves is the input body with statements
    taken out: nothing is added, reordered or rewritten. No assignment with a
    marked target is left among its statements, and the constructor comes
    back as it was exactly when it had none. *)
Theorem override_init_result (sync_node : fundef) :
  sublist (body (override_init sync_node)) (body sync_node)
  /\ Forall (fun s => marked_assignment s = false)
            (body (override_init sync_node))
  /\ (override_init sync_node = sync_node
      <-> Forall (fun s => marked_assignment s = false) (body sync_node)).
Proof.
  split; [| split].
  - rewrite override_init_body.
    induction (body sync_node) as [|s l IH]; simpl; [constructor |].
    destruct (marked_assignment s); simpl; by constructor.
  - rewrite override_init_body. apply Forall_forall. intros s Hs.
    apply list_elem_of_In, List.filter_In in Hs as [_ Hs].
    by apply negb_true_iff in Hs.
  - rewrite <- kept_unmarked, <- override_init_kept. split.
    + by intros ->.
    + intros H. apply fundef_eq_body; done.
Qed.

(** X3. [override_init] decides statement by statement: what is left of two
    bodies put one after the other is what is left of the first followed by
    what is left of the second, although the statements to remove are
    collected in one list for the whole body. *)
Theorem override_init_app (sync_node : fundef) (l1 l2 : list stmt) :
  body (override_init (with_body sync_node (l1 ++ l2)))
  = body (override_init (with_body sync_node l1))
    ++ body (override_init (with_body sync_node l2)).
Proof. rewrite !override_init_kept. simpl. apply kept_app. Qed.

(** ** The policy *)

(** X4. Arguments left out of the constructor stand for empty lists: with no
    [async_methods] every name is kept synchronous and none is classified
    [Converted]; with no [exclude_methods] none is classified [Excluded]. *)
Theorem default_policy (keep exclude async : option (list string)) (m : string) :
  _keep_sync (__init__ keep exclude None) m = true
  /\ classify (__init__ keep exclude None) m <> Converted
  /\ classify (__init__ keep None async) m <> Excluded
  /\ (m <> "__init__" -> m <> "close" ->
      classify (__init__ keep None None) m = KeptSync).
Proof.
  assert (Hk : _keep_sync (__init__ keep exclude None) m = true).
  { apply _keep_sync_true. right. simpl. apply not_elem_of_nil. }
  split; [done |]. split; [| split].
  - unfold classify. rewrite Hk.
    destruct (list_in m _); [done |].
    destruct (String.eqb m "__init__"); [done |].
    by destruct (String.eqb m "close").
  - intros H. apply classify_excluded in H. simpl in H.
    by apply elem_of_nil in H.
  - intros Hi Hc. apply String.eqb_neq in Hi, Hc.
    unfold classify. rewrite Hi, Hc. simpl exclude_methods.
    assert (He : list_in m [] = false) by (apply list_in_false, not_elem_of_nil).
    rewrite He.
    assert (Hk' : _keep_sync (__init__ keep None None) m = true).
    { apply _keep_sync_true. right. simpl. apply not_elem_of_nil. }
    by rewrite Hk'.
Qed.

Lemma default_policy_witness :
  classify (__init__ None None None) "upsert" = KeptSync.
Proof. by apply (default_policy None None None "upsert"). Defined.

(** ** The shutdown template at run time *)

Section ShutdownRuns.

Variable w : transports.
Variables grace kwargs : value.

Local Abbreviation in_close := (within_close grace kwargs).

Lemma eval_channel_call st c :
  in_close st ->
  self_dict st !! "_grpc_channel" = Some (VObject c) ->
  eval w (Await (Call (Attribute (Attribute (Name "self") "_grpc_channel") "close")
                      [] [("grace", Name "grpc_grace")])) st
  = call_value w (VMethod c "close") [] [("grace", grace)] st.
Proof.
  intros H E. change (eval w (Await ?e)) with (eval w e).
  eapply eval_Call_rule.
  - erewrite eval_Attribute_rule; cycle 1.
    + by rewrite (eval_self_attr w grace kwargs), E.
    + reflexivity.
  - apply eval_args_nil.
  - eapply eval_keywords_cons; [by apply (eval_grace w grace kwargs) |].
    apply eval_keywords_nil.
Qed.

Lemma eval_http_call st h :
  in_close st ->
  self_dict st !! "http" = Some (VObject h) ->
  eval w (Await (Call (Attribute (Attribute (Name "self") "http") "aclose") [] [])) st
  = call_value w (VMethod h "aclose") [] [] st.
Proof.
  intros H E. change (eval w (Await ?e)) with (eval w e).
  eapply eval_Call_rule.
  - erewrite eval_Attribute_rule; cycle 1.
    + by rewrite (eval_self_attr w grace kwargs), E.
    + reflexivity.
  - apply eval_args_nil.
  - apply eval_keywords_nil.
Qed.

Lemma exec_close_channel_skipped st :
  in_close st ->
  channel_open st = false ->
  exec w close_channel_stmt st = (Normal, st).
Proof.
  intros H Ho. unfold close_channel_stmt.
  rewrite (exec_If_rule w _ _ _ _ _ _ (eval_channel_test w grace kwargs st H)).
  by rewrite Ho.
Qed.

Lemma exec_close_channel_escapes st c e :
  in_close st ->
  self_dict st !! "_grpc_channel" = Some (VObject c) ->
  w c "close" (count_invocations c "close" (invocations st)) = Some e ->
  catches (Some (Name "AttributeError")) e = Some false ->
  catches (Some (Name "RuntimeError")) e = Some false ->
  exec w close_channel_stmt st = (Raised e, record_invocation c "close" st).
Proof.
  intros H E Ew Ha Hr. unfold close_channel_stmt.
  rewrite (exec_If_rule w _ _ _ _ _ _ (eval_channel_test w grace kwargs st H)).
  unfold channel_open. rewrite E. simpl truthy. cbv iota.
  pose proof (eval_channel_call st c H E) as Hcall.
  unfold call_value in Hcall. rewrite Ew in Hcall.
  erewrite exec_block_raised; [reflexivity |].
  erewrite exec_Try_raised; cycle 1.
  { erewrite exec_block_raised; [reflexivity |].
    by rewrite (exec_Expr_rule w _ _ _ _ Hcall). }
  erewrite exec_handlers_passed; [| done].
  erewrite exec_handlers_passed; [| done].
  reflexivity.
Qed.

Lemma exec_close_http_escapes st h e :
  in_close st ->
  self_dict st !! "http" = Some (VObject h) ->
  w h "aclose" (count_invocations h "aclose" (invocations st)) = Some e ->
  is_Exception e = false ->
  exec w close_http_stmt st = (Raised e, record_invocation h "aclose" st).
Proof.
  intros H E Ew He. unfold close_http_stmt.
  pose proof (eval_http_call st h H E) as Hcall.
  unfold call_value in Hcall. rewrite Ew in Hcall.
  erewrite exec_Try_raised; cycle 1.
  { erewrite exec_block_raised; [reflexivity |].
    by rewrite (exec_Expr_rule w _ _ _ _ Hcall). }
  erewrite exec_handlers_passed; [reflexivity |].
  by rewrite catches_Exception, He.
Qed.

Lemma count_invocations_app o m l1 l2 :
  count_invocations o m (l1 ++ l2)
  = count_invocations o m l1 + count_invocations o m l2.
Proof. unfold count_invocations. by rewrite List.filter_app, length_app. Qed.

Lemma count_invocations_other o m o' m' :
  m <> m' -> count_invocations o m [(o', m')] = 0.
Proof.
  intros Hm. unfold count_invocations. simpl.
  apply String.eqb_neq in Hm. rewrite String.eqb_sym in Hm.
  by rewrite Hm, andb_false_r.
Qed.

Lemma count_invocations_same o m : count_invocations o m [(o, m)] = 1.
Proof. unfold count_invocations. simpl. by rewrite !String.eqb_refl. Qed.

Lemma invocations_after_channel_close st :
  invocations (after_channel_close w st)
  = invocations st
    ++ match self_dict st !! "_grpc_channel" with
       | Some (VObject c) => [(c, "close")]
       | _ => []
       end.
Proof.
  unfold after_channel_close.
  destruct (self_dict st !! "_grpc_channel") as [[]|];
    try (by rewrite app_nil_r).
  by destruct (w _ _ _) as [[]|].
Qed.

Lemma invocations_after_http_close st :
  invocations (after_http_close w st)
  = invocations st
    ++ match self_dict st !! "http" with
       | Some (VObject h) => [(h, "aclose")]
       | _ => []
       end.
Proof.
  unfold after_http_close.
  destruct (self_dict st !! "http") as [[]|]; try (by rewrite app_nil_r).
  by destruct (w _ _ _).
Qed.

End ShutdownRuns.

(** X6. A [TypeError], a [NameError] or an error that is no [Exception] (a
    cancellation, say) raised by the channel close, which neither handler of
    the channel step catches, leaves the shutdown method: the run ends with
    that error after the one call of the channel close, with no warning,
    without an attempt to close the HTTP client and with the attributes of
    the client, the closed flag among them, as they were. *)
Theorem unguarded_channel_error_escapes
    (w : transports) (grace kwargs : value) (d : gmap string value)
    (calls : list (string * string)) (c : string) (e : exn) :
  d !! "_grpc_channel" = Some (VObject c) ->
  w c "close" (count_invocations c "close" calls) = Some e ->
  e = TypeError \/ e = NameError \/ is_Exception e = false ->
  catches (Some (Name "AttributeError")) e = Some false ->
  catches (Some (Name "RuntimeError")) e = Some false ->
  call_method w close_template (close_actuals grace kwargs) d calls
  = (Raised e,
     {| self_dict := d; locals := close_frame grace kwargs; warnings := [];
        invocations := calls ++ [(c, "close")] |}).
Proof.
  intros E Ew _ Ha Hr. unfold call_method. simpl body.
  erewrite exec_block_raised; [reflexivity |].
  by apply (exec_close_channel_escapes w grace kwargs).
Qed.

Lemma unguarded_channel_error_escapes_witness :
  (call_method (always_raises TypeError) close_template
     (close_actuals VNone VNone) open_client []).1
  = Raised TypeError.
Proof.
  rewrite (unguarded_channel_error_escapes (always_raises TypeError)
             VNone VNone open_client [] "channel" TypeError);
    try reflexivity.
  by left.
Defined.

(** X7. An error of the HTTP close that is no [Exception] (a cancellation,
    say) leaves the shutdown method too, after the channel has been dealt
    with: the closed flag is not set. *)
Theorem non_exception_http_error_escapes
    (w : transports) (grace kwargs : value) (d : gmap string value)
    (calls : list (string * string)) (h : string) (e : exn) :
  transport_slot (d !! "_grpc_channel") = true ->
  (forall c n e, w c "close" n = Some e -> channel_guarded e = true) ->
  d !! "http" = Some (VObject h) ->
  w h "aclose" (count_invocations h "aclose" calls) = Some e ->
  is_Exception e = false ->
  exists st',
    call_method w close_template (close_actuals grace kwargs) d calls
    = (Raised e, st')
    /\ self_dict st' = d
    /\ st' = record_invocation h "aclose"
               (after_channel_close w
                  (mk_state d (close_frame grace kwargs) [] calls)).
Proof.
  intros Hslot Hw E Ew He.
  set (st0 := mk_state d (close_frame grace kwargs) [] calls).
  eexists. split; [| split; [| reflexivity]].
  - unfold call_method. simpl body. fold st0.
    erewrite exec_block_cons;
      [| by apply (exec_close_channel w grace kwargs)].
    erewrite exec_block_raised; [reflexivity |].
    apply (exec_close_http_escapes w grace kwargs); [| | | done].
    + by apply after_channel_close_in_close.
    + by rewrite after_channel_close_self_dict.
    + rewrite invocations_after_channel_close, count_invocations_app.
      assert (Hz : count_invocations h "aclose"
                     match self_dict st0 !! "_grpc_channel" with
                     | Some (VObject c) => [(c, "close")]
                     | _ => []
                     end = 0).
      { destruct (self_dict st0 !! "_grpc_channel") as [[]|]; try done.
        by apply count_invocations_other. }
      rewrite Hz, Nat.add_0_r. exact Ew.
  - simpl. by rewrite after_channel_close_self_dict.
Qed.

Lemma non_exception_http_error_escapes_witness :
  exists st',
    call_method
      (fun _ m _ => if String.eqb m "aclose"
                    then Some (NonError "CancelledError") else None)
      close_template (close_actuals VNone VNone) open_client []
    = (Raised (NonError "CancelledError"), st')
    /\ self_dict st' !! "_closed" = None.
Proof.
  destruct (non_exception_http_error_escapes
              (fun _ m _ => if String.eqb m "aclose"
                            then Some (NonError "CancelledError") else None)
              VNone VNone open_client [] "http" (NonError "CancelledError"))
    as (st' & Hrun & Hd & _).
  - reflexivity.
  - intros c n e. simpl. discriminate.
  - reflexivity.
  - reflexivity.
  - reflexivity.
  - exists st'. split; [exact Hrun |]. rewrite Hd. reflexivity.
Defined.

(** X8. The template does not look at the closed flag: shutting down a
    client that has been shut down closes both transports again. After two
    calls in a row the flag is true and the channel close and the HTTP close
    have each been called twice, the channel before the HTTP client both
    times. *)
Theorem closing_twice
    (w : transports) (grace kwargs : value) (d : gmap string value)
    (calls : list (string * string)) (c h : string) :
  d !! "_grpc_channel" = Some (VObject c) ->
  d !! "http" = Some (VObject h) ->
  (forall c n e, w c "close" n = Some e -> channel_guarded e = true) ->
  (forall h n e, w h "aclose" n = Some e -> is_Exception e = true) ->
  exists st1 st2,
    call_method w close_template (close_actuals grace kwargs) d calls
    = (Normal, st1)
    /\ call_method w close_template (close_actuals grace kwargs)
         (self_dict st1) (invocations st1)
       = (Normal, st2)
    /\ invocations st1 = calls ++ [(c, "close"); (h, "aclose")]
    /\ invocations st2
       = calls ++ [(c, "close"); (h, "aclose"); (c, "close"); (h, "aclose")]
    /\ self_dict st2 = self_dict st1
    /\ self_dict st1 = <["_closed" := VBool true]> d.
Proof.
  intros Ec Eh Hwc Hwh.
  assert (Hrun : forall d' calls',
            d' !! "_grpc_channel" = Some (VObject c) ->
            d' !! "http" = Some (VObject h) ->
            exists st',
              call_method w close_template (close_actuals grace kwargs) d' calls'
              = (Normal, st')
              /\ invocations st' = calls' ++ [(c, "close"); (h, "aclose")]
              /\ self_dict st' = <["_closed" := VBool true]> d').
  { intros d' calls' Ec' Eh'. eexists. split; [| split].
    - unfold call_method.
      apply (exec_close_body w grace kwargs); simpl; try done.
      + by rewrite Ec'.
      + by rewrite Eh'.
    - simpl. rewrite invocations_after_http_close,
        invocations_after_channel_close, after_channel_close_self_dict.
      simpl. by rewrite Ec', Eh', <- app_assoc.
    - simpl. by rewrite after_http_close_self_dict, after_channel_close_self_dict. }
  destruct (Hrun d calls Ec Eh) as (st1 & Hr1 & Hi1 & Hd1).
  destruct (Hrun (self_dict st1) (invocations st1)) as (st2 & Hr2 & Hi2 & Hd2).
  { rewrite Hd1. by rewrite lookup_insert_ne. }
  { rewrite Hd1. by rewrite lookup_insert_ne. }
  exists st1, st2. repeat split; try done.
  - by rewrite Hi2, Hi1, <- app_assoc.
  - by rewrite Hd2, Hd1, insert_insert_eq.
Qed.

Lemma closing_twice_witness :
  exists st1 st2,
    call_method (always_raises RuntimeError) close_template
      (close_actuals VNone VNone) open_client []
    = (Normal, st1)
    /\ call_method (always_raises RuntimeError) close_template
         (close_actuals VNone VNone) (self_dict st1) (invocations st1)
       = (Normal, st2)
    /\ invocations st2
       = [("channel", "close"); ("http", "aclose");
          ("channel", "close"); ("http", "aclose")].
Proof.
  destruct (closing_twice (always_raises RuntimeError) VNone VNone
              open_client [] "channel" "http")
    as (st1 & st2 & H1 & H2 & _ & Hi & _).
  - reflexivity.
  - reflexivity.
  - intros c n e [= <-]. reflexivity.
  - intros h n e [= <-]. reflexivity.
  - exists st1, st2. split; [exact H1 |]. split; [exact H2 | exact Hi].
Defined.

(** X9. When the channel attribute is missing or [None] the channel is left
    alone: whatever a channel close would do, no [close] is called, and the
    shutdown ends normally with the closed flag set as soon as the HTTP
    close fails with errors derived from [Exception] only. *)
Theorem shutdown_without_channel
    (w : transports) (grace kwargs : value) (d : gmap string value)
    (calls : list (string * string)) :
  d !! "_grpc_channel" = None \/ d !! "_grpc_channel" = Some VNone ->
  transport_slot (d !! "http") = true ->
  (forall h n e, w h "aclose" n = Some e -> is_Exception e = true) ->
  exists st',
    call_method w close_template (close_actuals grace kwargs) d calls
    = (Normal, st')
    /\ self_dict st' = <["_closed" := VBool true]> d
    /\ forall o, count_invocations o "close" (invocations st')
                 = count_invocations o "close" calls.
Proof.
  intros Hc Hh Hw.
  set (st0 := mk_state d (close_frame grace kwargs) [] calls).
  exists (store_attr "_closed" (VBool true) (after_http_close w st0)).
  split; [| split].
  - unfold call_method. simpl body. fold st0.
    erewrite exec_block_cons; cycle 1.
    { apply (exec_close_channel_skipped w grace kwargs); [done |].
      unfold channel_open. simpl. by destruct Hc as [-> | ->]. }
    erewrite exec_block_cons; cycle 1.
    { by apply (exec_close_http w grace kwargs). }
    erewrite exec_block_cons; [apply exec_block_nil |].
    apply (exec_set_closed w grace kwargs).
    by apply after_http_close_in_close.
  - simpl. by rewrite after_http_close_self_dict.
  - intros o. simpl.
    rewrite invocations_after_http_close, count_invocations_app. simpl.
    assert (Hz : count_invocations o "close"
                   match d !! "http" with
                   | Some (VObject h) => [(h, "aclose")]
                   | _ => []
                   end = 0).
    { destruct (d !! "http") as [[]|]; try done.
      by apply count_invocations_other. }
    rewrite Hz. lia.
Qed.

Lemma shutdown_without_channel_witness :
  exists st',
    call_method (always_raises (OtherError "AioRpcError")) close_template
      (close_actuals VNone VNone) {[ "http" := VObject "http" ]} []
    = (Normal, st')
    /\ self_dict st' !! "_closed" = Some (VBool true).
Proof.
  destruct (shutdown_without_channel (always_raises (OtherError "AioRpcError"))
              VNone VNone {[ "http" := VObject "http" ]} [])
    as (st' & Hrun & Hd & _).
  - by left.
  - reflexivity.
  - intros h n e [= <-]. reflexivity.
  - exists st'. split; [exact Hrun |]. rewrite Hd. apply lookup_insert_eq.
Defined.
